(** * Jewelry POS core: scan-stream parser, bulk ledger, markup resolution,
      product-form price validation and bar-pattern generation.

    Shallow embedding of
      - src/components/pos/ProductScanner.tsx   (handleKeyDown, processBuffer,
        processSku, handleManualSubmit, handleBulkComplete)
      - src/utils/markupSettings.ts             (getMarkupForProduct)
      - components/inventory/ProductForm.tsx    (generateCode128Bars,
        generateBarcodePattern, generateBarcode, handleChange, handleSubmit)
      - components/inventory/InventoryList.tsx  (handleAddProduct,
        handleEditProduct, filteredProducts, getDaysSinceLastSold)
      - components/pos/PrintTemplates/ThermalTemplate.tsx (categoryTotals)
    and of the JavaScript built-ins they rely on, followed by the
    properties stated about them.  The cipher codec of
    utils/barcodeGenerator is not among the sources; it is modelled from
    its description. *)

From Stdlib Require Import ZArith List String Ascii Bool Lia QArith Qround Permutation.
Import ListNotations.

(** An integer where a JavaScript number is expected is that number. *)
Coercion inject_Z : Z >-> Q.

Local Open Scope string_scope.
Local Open Scope Z_scope.

(* ================================================================== *)
(** * Part I: definitions *)
(* ================================================================== *)

(** ** The JavaScript string built-ins the scanner relies on *)

Module JsString.

(** [s.substring(n)] for a natural start index. *)
Fixpoint drop (n : nat) (s : string) : string :=
  match n, s with
  | O, _ => s
  | S _, EmptyString => EmptyString
  | S n', String _ s' => drop n' s'
  end.

(** [s.substring(k)]: a negative start is clamped to 0, a start beyond the
    end yields the empty string. *)
Definition substring_from (k : Z) (s : string) : string :=
  drop (Z.to_nat k) s.

(** [s.endsWith(p)]. *)
Definition endsWith (s p : string) : bool :=
  (length p <=? length s)%nat && (drop (length s - length p) s =? p)%string.

(** [s.lastIndexOf(p)]: the greatest index at which [p] occurs in [s],
    [-1] when it does not occur.  [i] is the index of the head of [s]. *)
Fixpoint lastIndexOf_at (p s : string) (i : Z) : Z :=
  match s with
  | EmptyString => if prefix p EmptyString then i else -1
  | String _ s' =>
      let r := lastIndexOf_at p s' (i + 1) in
      if 0 <=? r then r else if prefix p s then i else -1
  end.

Definition lastIndexOf (s p : string) : Z := lastIndexOf_at p s 0.

(** [s.match(new RegExp(p, 'g'))] for a pattern [p] without regex
    metacharacters: the successive non-overlapping occurrences of [p],
    scanning left to right; [skip] counts the characters of the current
    occurrence still to be stepped over.  JavaScript returns [null] when
    nothing matches, which the caller treats like the empty array. *)
Fixpoint match_all_from (p s : string) (skip : nat) : list string :=
  match s with
  | EmptyString => []
  | String _ s' =>
      match skip with
      | S k => match_all_from p s' k
      | O => if prefix p s
             then p :: match_all_from p s' (length p - 1)
             else match_all_from p s' 0
      end
  end.

Definition match_all (s p : string) : list string := match_all_from p s 0.

(** JavaScript truthiness of a string. *)
Definition truthy (s : string) : bool := negb (s =? "")%string.

(** [p] occurs somewhere in [s]. *)
Definition occurs_in (p s : string) : Prop := exists x y, s = x ++ p ++ y.

(** [n] copies of [s] one after the other. *)
Fixpoint copies (n : nat) (s : string) : string :=
  match n with
  | O => ""
  | S n' => s ++ copies n' s
  end.

End JsString.

(** ** ProductScanner.tsx *)

Module Scanner.
Import JsString.

Definition SCAN_TIMEOUT : Z := 30.
Definition SKU_PATTERN : string := "RIMO1200597".

(** The fields of a [KeyboardEvent] the handler reads. *)
Record KeyboardEvent := mkKey { key : string; ctrlKey : bool }.

(** The three [useRef] cells of the component. *)
Record Refs := mkRefs {
  lastKeyTime : Z;
  buffer : string;
  isShiftPressed : bool
}.

Definition initialRefs : Refs :=
  {| lastKeyTime := 0; buffer := ""; isShiftPressed := false |}.

Definition set_buffer (b : string) (r : Refs) : Refs :=
  {| lastKeyTime := lastKeyTime r; buffer := b;
     isShiftPressed := isShiftPressed r |}.

Definition set_lastKeyTime (t : Z) (r : Refs) : Refs :=
  {| lastKeyTime := t; buffer := buffer r;
     isShiftPressed := isShiftPressed r |}.

Definition set_shift (b : bool) (r : Refs) : Refs :=
  {| lastKeyTime := lastKeyTime r; buffer := buffer r;
     isShiftPressed := b |}.

(** What one run of the handler does besides updating the refs, in the
    order it does it. *)
Inductive Effect :=
| ScanningChange (on : bool)      (* onScanningChange(false) *)
| ToggleDebug                     (* setDebugMode(prev => !prev) *)
| Token (sku : string).           (* processSku(sku) past its guard *)

(** [processSku]: the guard [if (!sku) return;], then dispatch. *)
Definition processSku (sku : string) : list Effect :=
  if truthy sku then [Token sku] else [].

(** [processBuffer]. *)
Definition processBuffer (r : Refs) : Refs * list Effect :=
  if truthy (buffer r) then
    let matches := match_all (buffer r) SKU_PATTERN in
    let out :=
      match matches with
      | [] => processSku (buffer r)
      | _ :: _ => flat_map processSku matches
      end in
    (set_buffer "" r, out)
  else (r, []).

Definition is_modifier (k : string) : bool :=
  (k =? "Shift")%string || (k =? "Control")%string || (k =? "Alt")%string.

(** The length cap applied after each append: beyond 1000 characters only
    the last 200 are kept. *)
Definition cap_buffer (b : string) : string :=
  if (1000 <? length b)%nat
  then substring_from (Z.of_nat (length b) - 200) b else b.

(** [handleKeyDown], with [now] the value of [Date.now()]. *)
Definition handleKeyDown (now : Z) (e : KeyboardEvent) (r : Refs)
  : Refs * list Effect :=
  if (key e =? "Escape")%string then (r, [ScanningChange false])
  else if ctrlKey e && (key e =? "d")%string then (r, [ToggleDebug])
  else if (key e =? "Shift")%string then (set_shift true r, [])
  else
    let r1 :=
      if (now - lastKeyTime r >? SCAN_TIMEOUT) && negb (key e =? "Shift")%string
      then set_buffer "" r else r in
    let r2 :=
      if negb (is_modifier (key e)) then set_lastKeyTime now r1 else r1 in
    if (key e =? "Enter")%string then processBuffer r2
    else if negb (is_modifier (key e)) then
      let b1 := buffer r2 ++ key e in
      let b2 := cap_buffer b1 in
      if endsWith b2 SKU_PATTERN then
        let patternIndex := lastIndexOf b2 SKU_PATTERN in
        (set_buffer
           (substring_from (patternIndex + Z.of_nat (length SKU_PATTERN)) b2)
           r2,
         processSku SKU_PATTERN)
      else (set_buffer b2 r2, [])
    else (r2, []).

(** [handleKeyUp]. *)
Definition handleKeyUp (e : KeyboardEvent) (r : Refs) : Refs :=
  if (key e =? "Shift")%string then set_shift false r else r.

(** A key-down stream: each event with the clock reading at its arrival.
    Events are handled strictly in arrival order. *)
Definition Timed : Type := Z * KeyboardEvent.

Fixpoint run (r : Refs) (evs : list Timed) : Refs * list Effect :=
  match evs with
  | [] => (r, [])
  | (now, e) :: rest =>
      let '(r', out) := handleKeyDown now e r in
      let '(r'', out') := run r' rest in
      (r'', (out ++ out')%list)
  end.

(** The recognized-token events among the effects. *)
Fixpoint tokens (out : list Effect) : list string :=
  match out with
  | [] => []
  | Token s :: rest => s :: tokens rest
  | _ :: rest => tokens rest
  end.

(** The keys of a burst that types [s]: one key, the one-character
    string, per character. *)
Fixpoint keys_of (s : string) : list string :=
  match s with
  | EmptyString => []
  | String c s' => String c "" :: keys_of s'
  end.

(** Every gap between consecutive events is at most [SCAN_TIMEOUT]. *)
Fixpoint gaps_within (prev : Z) (evs : list Timed) : Prop :=
  match evs with
  | [] => True
  | (now, _) :: rest => now - prev <= SCAN_TIMEOUT /\ gaps_within now rest
  end.


(** A burst: every gap between two consecutive events of the stream is
    within the threshold (nothing is asked of the time before the first). *)
Definition burst (evs : list Timed) : Prop :=
  match evs with
  | [] => True
  | (first, _) :: rest => gaps_within first rest
  end.

(** The stream a device produces when it types [s]: one key-down per
    character, [step] milliseconds apart from [start] on, Control not held. *)
Fixpoint typed (start step : Z) (s : string) : list Timed :=
  match s with
  | EmptyString => []
  | String c s' =>
      (start, {| key := String c ""; ctrlKey := false |})
      :: typed (start + step) step s'
  end.

Definition keys (evs : list Timed) : list string :=
  map (fun te => key (snd te)) evs.

(** Every event comes more than [SCAN_TIMEOUT] after the one before it,
    the first one after [prev]: typing at a human pace. *)
Fixpoint gaps_beyond (prev : Z) (evs : list Timed) : Prop :=
  match evs with
  | [] => True
  | (now, _) :: rest => now - prev > SCAN_TIMEOUT /\ gaps_beyond now rest
  end.

(** The keys a scanner or a plain keyboard sends: one character, or one of
    the named keys the handler tests for. *)
Definition is_plain_key (k : string) : bool :=
  (length k =? 1)%nat || (k =? "Enter")%string || (k =? "Escape")%string
  || is_modifier k.

(** *** The bulk-scan ledger ([bulkItems]) *)

Record BulkItem := mkItem { sku : string; quantity : Z }.

Definition sku_is (s : string) (item : BulkItem) : bool :=
  (sku item =? s)%string.

(** [bulkItemsMap.get(sku)] is defined exactly when some item of the
    [bulkItems] of the render that created the handler carries that sku:
    the map is filled from that array, once per render. *)
Definition bulkItemsMap_has (rendered : list BulkItem) (s : string) : bool :=
  existsb (sku_is s) rendered.

(** [Array.prototype.findIndex]; [None] stands for [-1]. *)
Fixpoint findIndex (f : BulkItem -> bool) (l : list BulkItem) : option nat :=
  match l with
  | [] => None
  | x :: rest =>
      if f x then Some O
      else match findIndex f rest with
           | Some i => Some (S i)
           | None => None
           end
  end.

(** [updatedItems[index] = x] for an index inside the array. *)
Fixpoint set_at (i : nat) (x : BulkItem) (l : list BulkItem) : list BulkItem :=
  match l, i with
  | [], _ => []
  | _ :: rest, O => x :: rest
  | y :: rest, S i' => y :: set_at i' x rest
  end.

Definition bump (item : BulkItem) : BulkItem :=
  {| sku := sku item; quantity := quantity item + 1 |}.

(** The updater of [processSku]'s "existing item" branch. *)
Definition increment_found (s : string) (prev : list BulkItem) : list BulkItem :=
  match findIndex (sku_is s) prev with
  | Some index =>
      match nth_error prev index with
      | Some item => set_at index (bump item) prev
      | None => prev
      end
  | None => prev
  end.

(** The updater of the "new item" branch (both entry points). *)
Definition add_new (s : string) (prev : list BulkItem) : list BulkItem :=
  (prev ++ [ {| sku := s; quantity := 1 |} ])%list.

(** The updater of [handleManualSubmit]'s "existing item" branch. *)
Definition increment_all (s : string) (prev : list BulkItem) : list BulkItem :=
  map (fun item => if sku_is s item then bump item else item) prev.

(** [processSku] in bulk mode: the state updater handed to [setBulkItems].
    [rendered] is the [bulkItems] the handler closed over, [prev] the state
    the updater is applied to. *)
Definition processSku_bulk (rendered : list BulkItem) (s : string)
  : list BulkItem -> list BulkItem :=
  if truthy s then
    if bulkItemsMap_has rendered s then increment_found s else add_new s
  else fun prev => prev.

(** [handleManualSubmit] in bulk mode, likewise. *)
Definition handleManualSubmit_bulk (rendered : list BulkItem) (inputSku : string)
  : list BulkItem -> list BulkItem :=
  if truthy inputSku then
    match find (sku_is inputSku) rendered with
    | Some _ => increment_all inputSku
    | None => add_new inputSku
    end
  else fun prev => prev.

(** A dispatch step on a settled component: the handler that runs was
    created by the render of the current [bulkItems] (the effect lists
    [bulkItems] among its dependencies and re-subscribes on each change),
    and its updater is applied to that same state. *)
Definition scan_step (items : list BulkItem) (s : string) : list BulkItem :=
  processSku_bulk items s items.

Definition manual_step (items : list BulkItem) (s : string) : list BulkItem :=
  handleManualSubmit_bulk items s items.

(** [handleBulkComplete], the "Clear" button and the per-row delete. *)
Definition handleBulkComplete (hasOnBulkScan : bool) (items : list BulkItem)
  : list BulkItem :=
  if hasOnBulkScan && (0 <? List.length items)%nat then [] else items.

Definition clear_items (items : list BulkItem) : list BulkItem := [].

Fixpoint delete_at (index : nat) (items : list BulkItem) : list BulkItem :=
  match items, index with
  | [], _ => []
  | _ :: rest, O => rest
  | x :: rest, S i => x :: delete_at i rest
  end.

(** A bulk-mode dispatch: a token recognized in the key stream, or the
    contents of the input field submitted by hand. *)
Inductive Dispatch :=
| Scanned (token : string)
| Typed (inputSku : string).

Definition dispatched (d : Dispatch) : string :=
  match d with Scanned s | Typed s => s end.

Definition dispatch_step (items : list BulkItem) (d : Dispatch) : list BulkItem :=
  match d with
  | Scanned s => scan_step items s
  | Typed s => manual_step items s
  end.

(** A session of dispatches on a settled component, in order. *)
Definition dispatch_all (items : list BulkItem) (ds : list Dispatch)
  : list BulkItem :=
  fold_left dispatch_step ds items.

(** How many of the dispatches carried the sku [k]; dispatches of the empty
    string are the ones [processSku] and [handleManualSubmit] return from at
    once. *)
Definition times_dispatched (k : string) (ds : list Dispatch) : nat :=
  count_occ string_dec (filter truthy (map dispatched ds)) k.

(** The quantity the ledger shows for a sku: that of its first entry. *)
Definition quantity_in (s : string) (items : list BulkItem) : option Z :=
  option_map quantity (find (sku_is s) items).

(** The quantity accumulated for a sku: the sum over its entries. *)
Fixpoint quantityOf (s : string) (items : list BulkItem) : Z :=
  match items with
  | [] => 0
  | x :: rest => (if sku_is s x then quantity x else 0) + quantityOf s rest
  end.

(** [items'] keeps every entry of [items] in place, with the same sku and
    a quantity at least as large, and may hold further entries after. *)
Definition extends (items items' : list BulkItem) : Prop :=
  exists kept added,
    items' = (kept ++ added)%list /\
    Forall2 (fun a b => sku b = sku a /\ quantity a <= quantity b) items kept.

End Scanner.

(** ** utils/markupSettings.ts *)

Module Markup.

Inductive SettingType := manufacturer | category.

Definition SettingType_eqb (a b : SettingType) : bool :=
  match a, b with
  | manufacturer, manufacturer | category, category => true
  | _, _ => false
  end.

(** [MarkupSetting]; the markup is a decimal fraction, kept exact. *)
Record MarkupSetting := mkSetting {
  id : string;
  type : SettingType;
  name : string;
  markup : Q
}.

Definition defaultMarkupSettings : list MarkupSetting :=
  [ mkSetting "1" manufacturer "Cartier" (3 # 10);
    mkSetting "2" manufacturer "Tiffany" (35 # 100);
    mkSetting "3" manufacturer "Pandora" (25 # 100);
    mkSetting "4" manufacturer "Swarovski" (28 # 100);
    mkSetting "5" manufacturer "Local" (2 # 10);
    mkSetting "6" category "Rings" (25 # 100);
    mkSetting "7" category "Necklaces" (3 # 10);
    mkSetting "8" category "Earrings" (28 # 100);
    mkSetting "9" category "Bracelets" (32 # 100);
    mkSetting "10" category "Watches" (4 # 10) ].

Definition default_markup : Q := 2 # 10.

(** JavaScript truthiness of a number: zero is falsy. *)
Definition truthy (q : Q) : bool := negb (Qeq_bool q 0).

(** [a || b] where [a] is [setting?.markup]: [None] is [undefined]. *)
Definition js_or (a : option Q) (b : option Q) : option Q :=
  match a with
  | Some q => if truthy q then a else b
  | None => b
  end.

(** [a || d] with a number on the right. *)
Definition js_or_number (a : option Q) (d : Q) : Q :=
  match a with
  | Some q => if truthy q then q else d
  | None => d
  end.

Definition matches (t : SettingType) (n : string) (setting : MarkupSetting) : bool :=
  SettingType_eqb (type setting) t && (name setting =? n)%string.

(** The body of [getMarkupForProduct] over a table of settings. *)
Definition getMarkupFrom (settings : list MarkupSetting)
    (manufacturerName categoryName : string) : Q :=
  let manufacturerSetting := find (matches manufacturer manufacturerName) settings in
  let categorySetting := find (matches category categoryName) settings in
  js_or_number
    (js_or (option_map markup manufacturerSetting)
           (option_map markup categorySetting))
    default_markup.

Definition getMarkupForProduct (manufacturerName categoryName : string) : Q :=
  getMarkupFrom defaultMarkupSettings manufacturerName categoryName.

(** Resolution as the data model words it: the manufacturer rule when
    there is one, else the category rule when there is one, else the
    default, whatever fraction the rule carries. *)
Definition resolve_by_scope (settings : list MarkupSetting)
    (manufacturerName categoryName : string) : Q :=
  match find (matches manufacturer manufacturerName) settings with
  | Some rule => markup rule
  | None =>
      match find (matches category categoryName) settings with
      | Some rule => markup rule
      | None => default_markup
      end
  end.

End Markup.

(** ** components/inventory/ProductForm.tsx *)

Module ProductForm.

(** *** Bar patterns *)

Definition charCode (c : ascii) : nat := nat_of_ascii c.

(** The group pushed first for the character at index [i]. *)
Definition position_pattern (i : nat) : list nat :=
  (if (i mod 2 =? 0)%nat then [1; 2; 2; 1; 1; 1] else [1; 1; 2; 2; 1; 1])%nat.

(** The group pushed next, the "variation based on character". *)
Definition variation_pattern (c : ascii) : list nat :=
  let code := (charCode c mod 32)%nat in
  (if (code mod 3 =? 0)%nat then [2; 1; 1; 1; 2; 1]
   else if (code mod 3 =? 1)%nat then [1; 2; 1; 1; 1; 2]
   else [1; 1; 2; 1; 2; 1])%nat.

(** The loop of [generateCode128Bars], from index [i] on. *)
Fixpoint code128_chars (i : nat) (text : string) : list nat :=
  match text with
  | EmptyString => []
  | String c rest =>
      (position_pattern i ++ variation_pattern c ++ code128_chars (S i) rest)%list
  end.

Definition generateCode128Bars (text : string) : list nat :=
  ([2; 1; 1; 2; 3; 2] ++ code128_chars 0 text ++ [2; 3; 3; 1; 1; 1; 2])%list%nat.

(** The per-character pattern of [generateBarcodePattern]. *)
Definition char_pattern (c : ascii) : list nat :=
  let code := charCode c in
  (if (48 <=? code)%nat && (code <=? 57)%nat then [2; 1; 1; 2; 1; 1]
   else if (65 <=? code)%nat && (code <=? 90)%nat then [1; 2; 1; 1; 2; 1]
   else if (97 <=? code)%nat && (code <=? 122)%nat then [1; 1; 2; 1; 1; 2]
   else [1; 1; 1; 2; 2; 1])%nat.

Fixpoint pattern_chars (text : string) : list nat :=
  match text with
  | EmptyString => []
  | String c rest => (char_pattern c ++ pattern_chars rest)%list
  end.

Definition generateBarcodePattern (text : string) : list nat :=
  ([1; 2; 1; 2; 3; 2; 1] ++ pattern_chars text ++ [2; 3; 3; 1; 1; 1; 2])%list%nat.

(** [calculateBarcodeWidth], for a whole number of pixels per module. *)
Definition calculateBarcodeWidth (pattern : list nat) (moduleWidth : Z) : Z :=
  fold_left (fun sum width => sum + Z.of_nat width * moduleWidth) pattern 0.

(** The classes of characters the two generators tell apart. *)
Definition residue_class (c : ascii) : nat := ((charCode c mod 32) mod 3)%nat.

Inductive CharKind := Digit | Upper | Lower | Special.

Definition char_kind (c : ascii) : CharKind :=
  let code := charCode c in
  if (48 <=? code)%nat && (code <=? 57)%nat then Digit
  else if (65 <=? code)%nat && (code <=? 90)%nat then Upper
  else if (97 <=? code)%nat && (code <=? 122)%nat then Lower
  else Special.

(** *** The form and its two encoding paths *)

(** A JavaScript number: [NaN], a finite value, given exactly as a
    rational, or an infinity. *)
Inductive JsNumber := NaN | Num (q : Q) | Infinity (negative : bool).

Definition isNaN (a : JsNumber) : bool :=
  match a with NaN => true | _ => false end.

(** [a <= b]: false as soon as one side is [NaN]. *)
Definition js_le (a b : JsNumber) : bool :=
  match a, b with
  | NaN, _ | _, NaN => false
  | Num x, Num y => Qle_bool x y
  | Infinity true, _ => true
  | _, Infinity false => true
  | _, _ => false
  end.

(** Unary minus. *)
Definition negate (a : JsNumber) : JsNumber :=
  match a with
  | NaN => NaN
  | Num q => Num (- q)
  | Infinity negative => Infinity (negb negative)
  end.

Definition is_digit (c : ascii) : bool :=
  (48 <=? charCode c)%nat && (charCode c <=? 57)%nat.

Fixpoint all_digits (s : string) : bool :=
  match s with
  | EmptyString => true
  | String c rest => is_digit c && all_digits rest
  end.

Definition is_space (c : ascii) : bool :=
  ((9 <=? charCode c)%nat && (charCode c <=? 13)%nat) || (charCode c =? 32)%nat.

(** [s.trim()], in two passes. *)
Fixpoint trim_start (s : string) : string :=
  match s with
  | EmptyString => EmptyString
  | String c rest => if is_space c then trim_start rest else s
  end.

Fixpoint trim_end (s : string) : string :=
  match s with
  | EmptyString => EmptyString
  | String c rest =>
      match trim_end rest with
      | EmptyString => if is_space c then EmptyString else String c EmptyString
      | kept => String c kept
      end
  end.

Definition trim (s : string) : string := trim_end (trim_start s).

(** The value of a character as a digit of the base, if it is one. *)
Definition digit_of (base : Z) (c : ascii) : option Z :=
  let code := Z.of_nat (charCode c) in
  let d :=
    if is_digit c then code - 48
    else if (97 <=? code) && (code <=? 102) then code - 87
    else if (65 <=? code) && (code <=? 70) then code - 55
    else base in
  if d <? base then Some d else None.

(** The longest run of digits at the head of [s]: the value it gives when
    appended to the digits read so far, how many digits it has, and what
    follows it. *)
Fixpoint take_digits (base acc : Z) (count : nat) (s : string)
  : Z * nat * string :=
  match s with
  | EmptyString => (acc, count, s)
  | String c rest =>
      match digit_of base c with
      | Some d => take_digits base (base * acc + d) (S count) rest
      | None => (acc, count, s)
      end
  end.

(** An optional sign: whether it is a minus, and what follows. *)
Definition sign_of (s : string) : bool * string :=
  match s with
  | EmptyString => (false, s)
  | String c rest =>
      if (c =? "+")%char then (false, rest)
      else if (c =? "-")%char then (true, rest)
      else (false, s)
  end.

(** An optional exponent part up to the end of the text: [0] when there is
    none, [None] when what is there is no exponent part. *)
Definition exponent_part (s : string) : option Z :=
  match s with
  | EmptyString => Some 0
  | String c rest =>
      if (c =? "e")%char || (c =? "E")%char then
        let '(negative, ds) := sign_of rest in
        match take_digits 10 0 0 ds with
        | (n, S _, EmptyString) => Some (if negative then - n else n)
        | _ => None
        end
      else None
  end.

(** [m] times ten to the [e]. *)
Definition scaled (m e : Z) : JsNumber :=
  Num (if 0 <=? e then inject_Z (m * 10 ^ e) else m # Z.to_pos (10 ^ (- e))).

(** An unsigned decimal literal: [Infinity], or digits with an optional
    fraction and an optional exponent. *)
Definition unsigned_decimal (s : string) : JsNumber :=
  if (s =? "Infinity")%string then Infinity false
  else
    let '(i, ni, r1) := take_digits 10 0 0 s in
    match r1 with
    | EmptyString => match ni with O => NaN | S _ => Num (inject_Z i) end
    | String c r =>
        if (c =? ".")%char then
          let '(m, nf, r2) := take_digits 10 i 0 r in
          match (ni + nf)%nat, exponent_part r2 with
          | S _, Some e => scaled m (e - Z.of_nat nf)
          | _, _ => NaN
          end
        else
          match ni, exponent_part r1 with
          | S _, Some e => scaled i e
          | _, _ => NaN
          end
    end.

(** A binary, octal or hexadecimal integer literal, when the text starts
    as one. *)
Definition non_decimal (s : string) : option JsNumber :=
  match s with
  | String z (String p rest) =>
      let base :=
        if (p =? "x")%char || (p =? "X")%char then Some 16
        else if (p =? "o")%char || (p =? "O")%char then Some 8
        else if (p =? "b")%char || (p =? "B")%char then Some 2
        else None in
      match (z =? "0")%char, base with
      | true, Some b =>
          Some match take_digits b 0 0 rest with
               | (n, S _, EmptyString) => Num (inject_Z n)
               | _ => NaN
               end
      | _, _ => None
      end
  | _ => None
  end.

(** The mathematical value of the text [s] read as a numeric literal:
    white space around the literal is dropped, the empty text is [0], a
    text that is no numeric literal is [NaN]. *)
Definition literal_value (s : string) : JsNumber :=
  let t := trim s in
  if (t =? "")%string then Num 0
  else
    match non_decimal t with
    | Some v => v
    | None =>
        let '(negative, u) := sign_of t in
        if negative then negate (unsigned_decimal u) else unsigned_decimal u
    end.

(** Whether [n / d] is at least [2 ^ k]. *)
Definition at_least_pow2 (n : Z) (d : positive) (k : Z) : bool :=
  if 0 <=? k then Z.pos d * 2 ^ k <=? n else Z.pos d <=? n * 2 ^ (- k).

(** The double nearest to the positive rational [n / d]: 53 significant
    bits, a tie going to the even significand, with the gradual underflow
    below [2 ^ -1022]. *)
Definition round_pos (n : Z) (d : positive) : Q :=
  let k := Z.log2 n - Z.log2 (Z.pos d) in
  let lg := if at_least_pow2 n d k then k else k - 1 in
  let e := Z.max (lg - 52) (-1074) in
  let a := if 0 <=? e then n else n * 2 ^ (- e) in
  let b := if 0 <=? e then Z.pos d * 2 ^ e else Z.pos d in
  let m0 := a / b in
  let r := a mod b in
  let m :=
    if 2 * r <? b then m0
    else if b <? 2 * r then m0 + 1
    else if Z.even m0 then m0 else m0 + 1 in
  if 0 <=? e then inject_Z (m * 2 ^ e) else Qred (m # Z.to_pos (2 ^ (- e))).

(** The double nearest to a rational.  An integer up to [2 ^ 53] is a
    double as it stands. *)
Definition to_double (q : Q) : Q :=
  if (Qden q =? 1)%positive && (Z.abs (Qnum q) <=? 2 ^ 53) then q
  else if Qnum q =? 0 then 0%Q
  else if Qnum q <? 0 then (- round_pos (- Qnum q) (Qden q))%Q
  else round_pos (Qnum q) (Qden q).

(** [Number(s)] for a text [s] of ASCII characters: the double nearest to
    the value of the literal.  The overflow to an infinity of a value
    beyond the largest double is not modelled: such a value is rounded to
    53 significant bits like the others. *)
Definition Number (s : string) : JsNumber :=
  match literal_value s with
  | Num q => Num (to_double q)
  | v => v
  end.

(** [!s?.trim()]: nothing but white space. *)
Fixpoint blank (s : string) : bool :=
  match s with
  | EmptyString => true
  | String c rest => is_space c && blank rest
  end.

Record FormData := mkForm {
  name : string;
  description : string;
  manufacturer : string;
  category : string;
  buy_price : string;
  wholesale_price : string;
  retail_price : string;
  stock_level : string;
  image_url : string;
  additional_info : string
}.

Definition with_buy_price (b : string) (f : FormData) : FormData :=
  {| name := name f; description := description f;
     manufacturer := manufacturer f; category := category f;
     buy_price := b;
     wholesale_price := wholesale_price f; retail_price := retail_price f;
     stock_level := stock_level f; image_url := image_url f;
     additional_info := additional_info f |}.

(** The arguments of one call of [generateBarcodes] (utils/barcodeGenerator),
    in order; the fifth is [None] when [undefined] is passed. *)
Record BarcodeArgs := mkArgs {
  arg_category : string;
  arg_manufacturer : string;
  arg_wholesalePrice : JsNumber;
  arg_retailPrice : JsNumber;
  arg_fifth : option JsNumber;
  arg_additionalInfo : string
}.

(** What [generateBarcodes] resolves to. *)
Record Barcodes := mkBarcodes {
  sku : string;
  qrCode : string;
  code128 : string;
  cipher : string
}.

(** A call either throws or returns ([None]: a nullish result). *)
Inductive Outcome := Throws (message : string) | Returns (b : option Barcodes).

Record ProductData := mkProduct {
  pd_name : option string;
  pd_description : string;
  pd_manufacturer : string;
  pd_category : string;
  pd_buy_price : JsNumber;
  pd_wholesale_price : JsNumber;
  pd_retail_price : JsNumber;
  pd_stock_level : JsNumber;
  pd_image_url : string;
  pd_additional_info : string;
  pd_sku : string;
  pd_qr_code : string;
  pd_code128 : string;
  pd_cipher : string
}.

Inductive SubmitResult :=
| SubmitError (message : string)          (* setError(errorMessage) *)
| Submitted (productData : ProductData).  (* onSubmit(productData) *)

Inductive PreviewResult :=
| NotRun                                  (* a required field is empty *)
| PreviewError (message : string)         (* setError(...) *)
| Preview (qr generatedSKU : string).     (* setQrCode, setGeneratedSKU *)

Fixpoint join (sep : string) (l : list string) : string :=
  match l with
  | [] => ""
  | [x] => x
  | x :: rest => x ++ sep ++ join sep rest
  end.

Section Paths.

(** [generateBarcodes] is imported from utils/barcodeGenerator, which is
    not part of the sources: both paths are stated for an arbitrary one.
    [World] is whatever else it may read (clock, lookup tables). *)
Variable World : Type.
Variable generateBarcodes : World -> BarcodeArgs -> Outcome.

Definition requiredFields (f : FormData) : list (string * string) :=
  [ (manufacturer f, "Manufacturer");
    (category f, "Category");
    (buy_price f, "Buy Price");
    (wholesale_price f, "Wholesale Price");
    (retail_price f, "Retail Price");
    (stock_level f, "Stock Level") ].

Definition missingFields (f : FormData) : list string :=
  map snd (filter (fun kv => blank (fst kv)) (requiredFields f)).

Definition submit_args (f : FormData) : BarcodeArgs :=
  {| arg_category := category f;
     arg_manufacturer := manufacturer f;
     arg_wholesalePrice := Number (wholesale_price f);
     arg_retailPrice := Number (retail_price f);
     arg_fifth := None;
     arg_additionalInfo := additional_info f |}.

(** [handleSubmit]: the calls of [generateBarcodes] it makes, and how it
    ends. *)
Definition handleSubmit (w : World) (f : FormData)
  : list BarcodeArgs * SubmitResult :=
  match missingFields f with
  | _ :: _ =>
      ([], SubmitError ("Required fields missing: " ++ join ", " (missingFields f)))
  | [] =>
      let buyPrice := Number (buy_price f) in
      let wholesalePrice := Number (wholesale_price f) in
      let retailPrice := Number (retail_price f) in
      if js_le buyPrice (Num 0) then
        ([], SubmitError "Buy price must be greater than 0")
      else if js_le wholesalePrice buyPrice then
        ([], SubmitError "Wholesale price must be greater than buy price")
      else if js_le retailPrice wholesalePrice then
        ([], SubmitError "Retail price must be greater than wholesale price")
      else
        let args := submit_args f in
        match generateBarcodes w args with
        | Throws message =>
            ([args], SubmitError ("Barcode generation failed: " ++ message))
        | Returns None =>
            ([args], SubmitError "Failed to generate valid product barcodes")
        | Returns (Some barcodes) =>
            if JsString.truthy (sku barcodes) && JsString.truthy (qrCode barcodes)
               && JsString.truthy (code128 barcodes)
            then
              ([args],
               Submitted
                 {| pd_name := if JsString.truthy (name f) then Some (name f) else None;
                    pd_description := description f;
                    pd_manufacturer := manufacturer f;
                    pd_category := category f;
                    pd_buy_price := buyPrice;
                    pd_wholesale_price := wholesalePrice;
                    pd_retail_price := retailPrice;
                    pd_stock_level := Number (stock_level f);
                    pd_image_url := image_url f;
                    pd_additional_info := additional_info f;
                    pd_sku := sku barcodes;
                    pd_qr_code := qrCode barcodes;
                    pd_code128 := code128 barcodes;
                    pd_cipher := cipher barcodes |})
            else ([args], SubmitError "Failed to generate valid product barcodes")
        end
  end.

(** [generateBarcode], the preview path run whenever manufacturer,
    category, wholesale or retail price change. *)
Definition generateBarcode (w : World) (f : FormData)
  : list BarcodeArgs * PreviewResult :=
  if JsString.truthy (manufacturer f) && JsString.truthy (category f)
     && JsString.truthy (wholesale_price f) && JsString.truthy (retail_price f)
  then
    let wholesalePrice := Number (wholesale_price f) in
    let retailPrice := Number (retail_price f) in
    if isNaN wholesalePrice || js_le wholesalePrice (Num 0)
       || isNaN retailPrice || js_le retailPrice (Num 0)
    then ([], PreviewError "Invalid price values")
    else
      let args := submit_args f in
      match generateBarcodes w args with
      | Throws message =>
          ([args], PreviewError ("Error generating barcode: " ++ message))
      | Returns None =>
          ([args], PreviewError "Error generating barcode: Failed to generate barcode data")
      | Returns (Some barcodes) =>
          if JsString.truthy (sku barcodes)
          then ([args], Preview (qrCode barcodes) (sku barcodes))
          else ([args], PreviewError "Error generating barcode: Failed to generate barcode data")
      end
  else ([], NotRun).

End Paths.

(** A stand-in for [generateBarcodes], to run the two paths on concrete
    forms in the examples.  It accepts every call; nothing stated of the
    two paths rests on it. *)
Definition accepting_generateBarcodes (w : unit) (a : BarcodeArgs) : Outcome :=
  Returns (Some {| sku := arg_manufacturer a ++ "-" ++ arg_category a;
                   qrCode := "QR:" ++ arg_additionalInfo a;
                   code128 := arg_manufacturer a ++ "-" ++ arg_category a;
                   cipher := "X" |}).


(** A form with prices in order. *)
Definition ordered_form : FormData :=
  {| name := "Ring"; description := ""; manufacturer := "Cartier";
     category := "Rings"; buy_price := "8000"; wholesale_price := "10000";
     retail_price := "25000"; stock_level := "1"; image_url := "";
     additional_info := "" |}.





(** The four externally visible codes of a submission, when it succeeds. *)
Definition codes_of (r : SubmitResult) : option (string * string * string * string) :=
  match r with
  | Submitted p => Some (pd_sku p, pd_cipher p, pd_qr_code p, pd_code128 p)
  | SubmitError _ => None
  end.

End ProductForm.

(** ** components/inventory/InventoryList.tsx *)

Module Inventory.
Import ProductForm.









(** *** The product filter *)

(** [s.includes(sub)]. *)
Fixpoint includes (s sub : string) : bool :=
  prefix sub s ||
  match s with
  | EmptyString => false
  | String _ rest => includes rest sub
  end.

(** The fields of a [Product] the filter reads.  [lastSoldAt] is [None]
    when the product was never sold (null), otherwise what
    [new Date(lastSoldAt).getTime()] gives: milliseconds, or [NaN] for a
    text that is no date. *)
Record Product := mkListed {
  p_name : option string;
  p_sku : option string;
  p_category : option string;
  p_manufacturer : option string;
  p_description : option string;
  p_lastSoldAt : option JsNumber
}.

Record FilterOptions := mkFilters {
  deadStock : bool;
  slowMoving : bool;
  filter_category : string;
  filter_manufacturer : string
}.

(** [a < b]: false as soon as one side is [NaN]. *)
Definition js_lt (a b : JsNumber) : bool :=
  match a, b with
  | NaN, _ | _, NaN => false
  | Num x, Num y => negb (Qle_bool y x)
  | Infinity true, Infinity true => false
  | Infinity true, _ => true
  | Infinity false, _ => false
  | Num _, Infinity negative => negb negative
  end.

(** [getDaysSinceLastSold], with [now] the value of [new Date().getTime()]. *)
Definition daysSinceLastSold (now : Z) (lastSoldAt : option JsNumber) : JsNumber :=
  match lastSoldAt with
  | None => Num 999999
  | Some (Num t) =>
      Num (inject_Z (Qfloor ((inject_Z now - t) / inject_Z (1000 * 60 * 60 * 24))))
  | Some NaN => NaN
  | Some (Infinity negative) => Infinity (negb negative)
  end.

Section Filter.

(** [String.prototype.toLowerCase], left abstract. *)
Variable toLowerCase : string -> string.

(** [(field?.toLowerCase() || '')]. *)
Definition lowered (field : option string) : string :=
  match field with
  | Some v => toLowerCase v
  | None => ""
  end.

(** [product.category !== filters.category] and the like: a missing field
    differs from every text. *)
Definition differs (field : option string) (wanted : string) : bool :=
  match field with
  | Some v => negb (v =? wanted)%string
  | None => true
  end.

(** The predicate of [filteredProducts]. *)
Definition keeps (searchTerm : string) (filters : FilterOptions)
    (deadStockDays : JsNumber) (now : Z) (product : Product) : bool :=
  let searchLower := toLowerCase searchTerm in
  let matchesSearch :=
    (searchTerm =? "")%string
    || includes (lowered (p_name product)) searchLower
    || includes (lowered (p_sku product)) searchLower
    || includes (lowered (p_category product)) searchLower
    || includes (lowered (p_manufacturer product)) searchLower
    || includes (lowered (p_description product)) searchLower in
  if JsString.truthy (filter_category filters)
     && differs (p_category product) (filter_category filters) then false
  else if JsString.truthy (filter_manufacturer filters)
          && differs (p_manufacturer product) (filter_manufacturer filters)
  then false
  else
    let days := daysSinceLastSold now (p_lastSoldAt product) in
    if deadStock filters && js_lt days deadStockDays then false
    else if slowMoving filters && js_lt days (Num 30) then false
    else matchesSearch.

Definition filteredProducts (searchTerm : string) (filters : FilterOptions)
    (deadStockDays : JsNumber) (now : Z) (products : list Product)
  : list Product :=
  filter (keeps searchTerm filters deadStockDays now) products.

End Filter.

End Inventory.

(** ** components/pos/PrintTemplates/ThermalTemplate.tsx *)

Module Thermal.

(** What [categoryTotals] reads of an item of the bill. *)
Record Item := mkLine { category : string; quantity : Z }.

(** The names every object literal inherits from [Object.prototype]: for
    them [acc[category]] is defined, and truthy, before anything is stored,
    so no entry is created and the increment goes to the inherited value. *)
Definition inherited_keys : list string :=
  [ "constructor"; "__defineGetter__"; "__defineSetter__"; "hasOwnProperty";
    "__lookupGetter__"; "__lookupSetter__"; "isPrototypeOf";
    "propertyIsEnumerable"; "toString"; "valueOf"; "__proto__";
    "toLocaleString" ].

(** One step of the [reduce]: [acc[category]] is created with quantity 0
    when it is missing, then increased. *)
Fixpoint add_quantity (c : string) (q : Z) (acc : list (string * Z))
  : list (string * Z) :=
  match acc with
  | [] => [(c, 0 + q)]
  | (c', n) :: rest =>
      if (c' =? c)%string then (c', n + q) :: rest
      else (c', n) :: add_quantity c q rest
  end.

Definition inherited (c : string) : bool := existsb (String.eqb c) inherited_keys.

(** The object [totals] the [reduce] builds: its own properties, in the
    order in which they were created. *)
Definition totals (items : list Item) : list (string * Z) :=
  fold_left
    (fun acc item =>
       if inherited (category item) then acc
       else add_quantity (category item) (quantity item) acc)
    items [].

(** An array index: the decimal text, without leading zero, of an integer
    below [2 ^ 32 - 1]. *)
Definition array_index (k : string) : option Z :=
  match k with
  | EmptyString => None
  | String c rest =>
      if ProductForm.all_digits k && (negb (c =? "0")%char || (rest =? "")%string)
      then
        let '(v, _, _) := ProductForm.take_digits 10 0 0 k in
        if v <? 2 ^ 32 - 1 then Some v else None
      else None
  end.

Definition is_index (entry : string * Z) : bool :=
  match array_index (fst entry) with Some _ => true | None => false end.

Definition index_of (entry : string * Z) : Z :=
  match array_index (fst entry) with Some v => v | None => 0 end.

Fixpoint insert_by_index (entry : string * Z) (l : list (string * Z))
  : list (string * Z) :=
  match l with
  | [] => [entry]
  | e :: rest =>
      if index_of entry <? index_of e then entry :: l
      else e :: insert_by_index entry rest
  end.

(** [Object.entries] and [Object.values] list the properties whose keys
    are array indices first, in ascending order of the index, then the
    others in the order of their creation. *)
Definition listed (acc : list (string * Z)) : list (string * Z) :=
  (fold_right insert_by_index [] (filter is_index acc)
   ++ filter (fun entry => negb (is_index entry)) acc)%list.

(** [categoryTotals.categories], as [Object.entries] lists it. *)
Definition categories (items : list Item) : list (string * Z) :=
  listed (totals items).

(** [categoryTotals.grandTotal.quantity]. *)
Definition grandTotal (items : list Item) : Z :=
  fold_left (fun sum cat => sum + snd cat) (categories items) 0.

Fixpoint lookup (c : string) (acc : list (string * Z)) : option Z :=
  match acc with
  | [] => None
  | (c', n) :: rest => if (c' =? c)%string then Some n else lookup c rest
  end.

(** The pieces of one category on the bill. *)
Fixpoint pieces_of (c : string) (items : list Item) : Z :=
  match items with
  | [] => 0
  | item :: rest =>
      (if (category item =? c)%string then quantity item else 0)
      + pieces_of c rest
  end.

Fixpoint pieces (items : list Item) : Z :=
  match items with
  | [] => 0
  | item :: rest => quantity item + pieces rest
  end.

End Thermal.

(** ** The cipher codec *)

(** The codec itself (generateBarcodes and the decoding of a cipher, in
    utils/barcodeGenerator) is not part of the sources; the form only calls
    it.  Its price-encoding portion is modelled from the specification, for
    any digit alphabet and any group width. *)

Module CipherCodec.

Section Codec.

Variable alphabet : list ascii.
Variable width : nat.

(** Modelled from the spec: what the encoder writes for a price that does
    not fit a digit group.  The spec does not say; every statement below
    holds whatever it is. *)
Variable overflow : Z -> list ascii.

(** Modelled from the spec: the base [N] of the digit groups, the size of
    the digit alphabet. *)
Definition N : Z := Z.of_nat (List.length alphabet).






(** Modelled from the spec: the digit a character stands for, its position
    in the alphabet. *)
Fixpoint digit_value (al : list ascii) (c : ascii) : option Z :=
  match al with
  | [] => None
  | a :: rest =>
      if Ascii.eqb a c then Some 0
      else option_map Z.succ (digit_value rest c)
  end.

(** Modelled from the spec: the value of a digit group in base [N]. *)
Fixpoint group_value (acc : Z) (cs : list ascii) : option Z :=
  match cs with
  | [] => Some acc
  | c :: rest =>
      match digit_value alphabet c with
      | Some d => group_value (acc * N + d) rest
      | None => None
      end
  end.

(** Modelled from the spec: [decode] (absent from the sources), the
    reading of a cipher back into its wholesale and retail prices: two
    digit groups of the fixed width, each evaluated in base [N]. *)
Definition decode (cipher : string) : option (Z * Z) :=
  let cs := list_ascii_of_string cipher in
  if (List.length cs =? 2 * width)%nat then
    match group_value 0 (firstn width cs), group_value 0 (skipn width cs) with
    | Some wholesale, Some retail => Some (wholesale, retail)
    | _, _ => None
    end
  else None.

End Codec.




(** Modelled from the spec: an alphabet of 32 digits without the
    look-alikes 0/O and 1/I. *)
Definition unambiguous : list ascii :=
  list_ascii_of_string "23456789ABCDEFGHJKLMNPQRSTUVWXYZ".

End CipherCodec.


(* ================================================================== *)
(** * Part II: properties *)
(* ================================================================== *)

(** ** Facts about the string built-ins *)

Section StringFacts.
Import JsString.

Lemma append_empty_r (s : string) : s ++ "" = s.
Proof. induction s as [|c s IH]; simpl; [reflexivity | now rewrite IH]. Qed.

Lemma append_assoc (s t u : string) : (s ++ t) ++ u = s ++ (t ++ u).
Proof. induction s as [|c s IH]; simpl; [reflexivity | now rewrite IH]. Qed.

Lemma length_append (s t : string) :
  length (s ++ t) = (length s + length t)%nat.
Proof. induction s as [|c s IH]; simpl; [reflexivity | now rewrite IH]. Qed.

Lemma drop_all (n : nat) (s : string) : (length s <= n)%nat -> drop n s = "".
Proof.
  revert s; induction n as [|n IH]; intros [|c s] H; simpl in *;
    try reflexivity; try lia.
  apply IH; lia.
Qed.

Lemma drop_append (n : nat) (s t : string) :
  (n <= length s)%nat -> drop n (s ++ t) = drop n s ++ t.
Proof.
  revert s; induction n as [|n IH]; intros s H.
  - now destruct s.
  - destruct s as [|c s]; simpl in *; [lia | apply IH; lia].
Qed.

Lemma drop_length_append (s t : string) : drop (length s) (s ++ t) = t.
Proof. induction s as [|c s IH]; simpl; [now destruct t | exact IH]. Qed.

(** Every string splits at any index into what [drop] removes and what
    it keeps. *)
Lemma drop_split (n : nat) (s : string) :
  exists x, s = x ++ drop n s /\ length x = Nat.min n (length s).
Proof.
  revert s; induction n as [|n IH]; intros s.
  - exists "". now destruct s.
  - destruct s as [|c s]; [now exists "" |].
    destruct (IH s) as (x & Hx & Hl).
    exists (String c x); simpl; split; [now rewrite <- Hx | now rewrite Hl].
Qed.

Lemma eqb_length_differs (a b : string) :
  length a <> length b -> (a =? b)%string = false.
Proof. intros H; apply String.eqb_neq; intros ->; now apply H. Qed.

Lemma endsWith_append (x p : string) : endsWith (x ++ p) p = true.
Proof.
  unfold endsWith. rewrite length_append.
  replace (length x + length p - length p)%nat with (length x) by lia.
  rewrite drop_length_append, String.eqb_refl.
  apply andb_true_iff; split; [apply Nat.leb_le; lia | reflexivity].
Qed.

Lemma endsWith_split (s p : string) :
  endsWith s p = true ->
  exists x, s = x ++ p /\ length s = (length x + length p)%nat.
Proof.
  unfold endsWith; intros H; apply andb_true_iff in H as [Hl He].
  apply Nat.leb_le in Hl; apply String.eqb_eq in He.
  destruct (drop_split (length s - length p) s) as (x & Hx & Hlen).
  exists x; rewrite He in Hx; split; [exact Hx |].
  rewrite Hlen; lia.
Qed.

(** Two splittings of one string: the shorter tail is a tail of the
    longer one. *)
Lemma append_eq_append (x q y p : string) :
  x ++ q = y ++ p -> (length q <= length p)%nat ->
  exists z, p = z ++ q.
Proof.
  revert y; induction x as [|c x IH]; intros y H Hl; simpl in H.
  - destruct y as [|d y]; simpl in H.
    + exists ""; now subst.
    + subst q; simpl in Hl; rewrite length_append in Hl; lia.
  - destruct y as [|d y]; simpl in H.
    + exists (String c x); now subst.
    + injection H as _ H; now apply (IH y).
Qed.

(** A string that ends with [p] and is known to end with a shorter [q]:
    then [p] itself ends with [q]. *)
Lemma endsWith_shorter_tail (x q p : string) :
  endsWith (x ++ q) p = true -> (length q <= length p)%nat ->
  endsWith p q = true.
Proof.
  intros H Hl; apply endsWith_split in H as (y & Hy & _).
  destruct (append_eq_append _ _ _ _ Hy Hl) as (z & ->).
  apply endsWith_append.
Qed.

Lemma prefix_length (p s : string) :
  prefix p s = true -> (length p <= length s)%nat.
Proof.
  revert s; induction p as [|c p IH]; intros [|d s] H; simpl in *;
    try lia; try discriminate.
  destruct (ascii_dec c d); [apply IH in H; lia | discriminate].
Qed.

Lemma prefix_append (p t : string) : prefix p (p ++ t) = true.
Proof.
  induction p as [|c p IH]; simpl; [now destruct t |].
  destruct (ascii_dec c c); [exact IH | congruence].
Qed.

Lemma lastIndexOf_at_short (p s : string) (i : Z) :
  (length s < length p)%nat -> lastIndexOf_at p s i = -1.
Proof.
  revert i; induction s as [|c s IH]; intros i H.
  - destruct p; [simpl in H; lia | reflexivity].
  - cbn [lastIndexOf_at]. rewrite IH by (simpl in H; lia).
    change (0 <=? -1) with false. cbv iota.
    destruct (prefix p (String c s)) eqn:E; [|reflexivity].
    apply prefix_length in E; lia.
Qed.

(** In a string that ends with a non-empty [p], the last occurrence of
    [p] is that ending. *)
Lemma lastIndexOf_at_append (x p : string) (i : Z) :
  p <> "" -> 0 <= i ->
  lastIndexOf_at p (x ++ p) i = i + Z.of_nat (length x).
Proof.
  intros Hp; revert i; induction x as [|c x IH]; intros i Hi.
  - destruct p as [|d p]; [congruence|]. simpl append.
    cbn [lastIndexOf_at].
    rewrite lastIndexOf_at_short by (simpl; lia).
    change (0 <=? -1) with false. cbv iota.
    rewrite <- (append_empty_r (String d p)) at 2.
    rewrite prefix_append. simpl; lia.
  - simpl append. cbn [lastIndexOf_at].
    rewrite IH by lia.
    replace (0 <=? i + 1 + Z.of_nat (length x)) with true
      by (symmetry; apply Z.leb_le; lia).
    simpl length; lia.
Qed.

(** What [handleKeyDown] keeps of a buffer that ends with the pattern. *)
Lemma remainder_after_match (b p : string) :
  p <> "" -> endsWith b p = true ->
  substring_from (lastIndexOf b p + Z.of_nat (length p)) b = "".
Proof.
  intros Hp H; apply endsWith_split in H as (x & -> & Hl).
  unfold lastIndexOf, substring_from.
  rewrite lastIndexOf_at_append by (auto; lia).
  apply drop_all. rewrite length_append; lia.
Qed.

End StringFacts.

(** ** The scan-stream parser *)

Section ScannerFacts.
Import JsString Scanner.

Lemma run_app (r : Refs) (evs1 evs2 : list Timed) :
  run r (evs1 ++ evs2) =
  (fst (run (fst (run r evs1)) evs2),
   (snd (run r evs1) ++ snd (run (fst (run r evs1)) evs2))%list).
Proof.
  revert r; induction evs1 as [|[now e] evs1 IH]; intros r; simpl.
  - now destruct (run r evs2).
  - destruct (handleKeyDown now e r) as [r1 out1]. rewrite IH.
    destruct (run r1 evs1) as [r2 out2]; simpl.
    now rewrite app_assoc.
Qed.

(** The cap never cuts into the last 200 characters. *)
Lemma cap_buffer_keeps_tail (x t : string) :
  (length t <= 200)%nat -> exists x', cap_buffer (x ++ t) = x' ++ t.
Proof.
  intros Ht; unfold cap_buffer.
  destruct (1000 <? length (x ++ t))%nat eqn:E; [|now exists x].
  apply Nat.ltb_lt in E. rewrite length_append in *.
  unfold substring_from. exists (drop (Z.to_nat (Z.of_nat (length x + length t) - 200)) x).
  apply drop_append. lia.
Qed.

(** The cap keeps a tail of the buffer. *)
Lemma cap_buffer_tail (b : string) : exists x, b = x ++ cap_buffer b.
Proof.
  unfold cap_buffer, substring_from.
  destruct (1000 <? length b)%nat; [|now exists ""].
  destruct (drop_split (Z.to_nat (Z.of_nat (length b) - 200)) b) as (x & Hx & _).
  now exists x.
Qed.

(** A key that is one character long is none of the named keys. *)
Lemma char_key_not_named (c : ascii) :
  (String c "" =? "Escape")%string = false /\
  (String c "" =? "Shift")%string = false /\
  (String c "" =? "Enter")%string = false /\
  is_modifier (String c "") = false.
Proof.
  unfold is_modifier.
  repeat split; repeat (rewrite eqb_length_differs by (simpl; lia)); reflexivity.
Qed.

(** [handleKeyDown] on a character key. *)
Lemma handleKeyDown_char (now : Z) (e : KeyboardEvent) (r : Refs) (c : ascii) :
  key e = String c "" ->
  ctrlKey e && (key e =? "d")%string = false ->
  handleKeyDown now e r =
  let b0 := if now - lastKeyTime r >? SCAN_TIMEOUT then "" else buffer r in
  let b2 := cap_buffer (b0 ++ String c "") in
  if endsWith b2 SKU_PATTERN
  then ({| lastKeyTime := now;
           buffer := substring_from
                       (lastIndexOf b2 SKU_PATTERN + Z.of_nat (length SKU_PATTERN)) b2;
           isShiftPressed := isShiftPressed r |},
        [Token SKU_PATTERN])
  else ({| lastKeyTime := now; buffer := b2;
           isShiftPressed := isShiftPressed r |}, []).
Proof.
  intros Hk Hd. unfold handleKeyDown. rewrite Hd, Hk.
  destruct (char_key_not_named c) as (-> & -> & -> & ->).
  cbn [negb andb]. rewrite andb_true_r.
  destruct (now - lastKeyTime r >? SCAN_TIMEOUT); cbn -[endsWith lastIndexOf cap_buffer SKU_PATTERN Z.add Z.of_nat];
    match goal with |- context [endsWith ?b _] => destruct (endsWith b SKU_PATTERN) end;
    reflexivity.
Qed.

Ltac split_pattern H pre tac :=
  destruct pre as [|? pre]; simpl in H;
  [ first [ discriminate H | injection H as ? ?; subst; tac ]
  | first [ discriminate H | injection H as ? H; subst; split_pattern H pre tac ] ].

(** Wherever the pattern is cut, the character after the cut is not [d],
    and a buffer ending with a proper beginning of the pattern does not end
    with the pattern: no proper beginning of it is also an ending of it. *)
Lemma pattern_splits (pre post : string) (c : ascii) :
  pre ++ String c post = SKU_PATTERN ->
  (String c "" =? "d")%string = false /\
  (length (pre ++ String c "") <= 200)%nat /\
  (post <> "" ->
   forall y, endsWith (y ++ pre ++ String c "") SKU_PATTERN = false).
Proof.
  unfold SKU_PATTERN; intros H.
  split_pattern H pre
    ltac:(split; [reflexivity | split; [simpl; lia |]];
          intros Hne y; try congruence;
          match goal with
          | |- ?b = false =>
              destruct b eqn:E; [|reflexivity];
              apply endsWith_shorter_tail in E; [|simpl; lia];
              vm_compute in E; discriminate E
          end).
Qed.

(** Once a beginning of the pattern is in the buffer, the rest of the burst
    completes it: one token, and nothing is left in the buffer. *)
Lemma scan_rest (post : string) :
  forall (pre : string) (r : Refs) (evs : list Timed) (x : string),
    pre ++ post = SKU_PATTERN -> post <> "" ->
    buffer r = x ++ pre ->
    keys evs = keys_of post ->
    gaps_within (lastKeyTime r) evs ->
    exists r', run r evs = (r', [Token SKU_PATTERN]) /\ buffer r' = "".
Proof.
  induction post as [|c post IH]; intros pre r evs x Hsplit Hne Hbuf Hkeys Hgaps;
    [congruence|].
  destruct evs as [|[now e] evs]; [discriminate Hkeys|].
  injection Hkeys as Hk Hkeys. destruct Hgaps as [Hgap Hgaps].
  destruct (pattern_splits _ _ _ Hsplit) as (Hd & Hlen & Hno).
  assert (Hctrl : ctrlKey e && (key e =? "d")%string = false)
    by (rewrite Hk, Hd; apply andb_false_r).
  cbn [run].
  rewrite (handleKeyDown_char now e r c Hk Hctrl). cbv zeta.
  replace (now - lastKeyTime r >? SCAN_TIMEOUT) with false
    by (symmetry; rewrite Z.gtb_ltb; apply Z.ltb_ge; exact Hgap).
  rewrite Hbuf, append_assoc.
  destruct (cap_buffer_keeps_tail x (pre ++ String c "") Hlen) as (x' & ->).
  destruct post as [|c' post].
  - assert (E : pre ++ String c "" = SKU_PATTERN) by exact Hsplit.
    rewrite E, endsWith_append.
    rewrite remainder_after_match by (try apply endsWith_append; discriminate).
    destruct evs; [|discriminate Hkeys]. cbn [run].
    eexists; split; reflexivity.
  - rewrite Hno by discriminate.
    match goal with |- context [run ?r1 evs] =>
      destruct (IH (pre ++ String c "") r1 evs x') as (r' & Hrun & Hb);
        [ now rewrite append_assoc | discriminate | reflexivity | exact Hkeys
        | exact Hgaps | ]
    end.
    rewrite Hrun. exists r'; split; [reflexivity | exact Hb].
Qed.

(** A burst that types the pattern yields one token whatever the buffer
    held before, and leaves the buffer empty. *)
Lemma scan_token (r : Refs) (evs : list Timed) :
  keys evs = keys_of SKU_PATTERN -> burst evs ->
  exists r', run r evs = (r', [Token SKU_PATTERN]) /\ buffer r' = "".
Proof.
  intros Hkeys Hburst.
  destruct evs as [|[now e] evs]; [discriminate Hkeys|].
  injection Hkeys as Hk Hkeys. cbn [burst] in Hburst.
  destruct (pattern_splits "" "IMO1200597" "R" eq_refl) as (Hd & Hlen & Hno).
  cbn [append] in Hlen, Hno.
  assert (Hctrl : ctrlKey e && (key e =? "d")%string = false)
    by (rewrite Hk, Hd; apply andb_false_r).
  cbn [run].
  rewrite (handleKeyDown_char now e r "R" Hk Hctrl). cbv zeta.
  set (b0 := if now - lastKeyTime r >? SCAN_TIMEOUT then "" else buffer r).
  destruct (cap_buffer_keeps_tail b0 "R" Hlen) as (x' & ->).
  rewrite (Hno ltac:(discriminate) x').
  match goal with |- context [run ?r1 evs] =>
    destruct (scan_rest "IMO1200597" "R" r1 evs x') as (r' & Hrun & Hb);
      [ reflexivity | discriminate | reflexivity | exact Hkeys | exact Hburst | ]
  end.
  rewrite Hrun. exists r'; split; [reflexivity | exact Hb].
Qed.

Lemma gaps_within_app (prev : Z) (evs1 evs2 : list Timed) :
  gaps_within prev (evs1 ++ evs2) -> gaps_within prev evs1 /\ burst evs2.
Proof.
  revert prev; induction evs1 as [|[now e] evs1 IH]; intros prev H.
  - split; [exact I|]. destruct evs2 as [|[t e] evs2]; [exact I | apply H].
  - destruct H as [H1 H2]. destruct (IH _ H2). repeat split; assumption.
Qed.

Lemma burst_app (evs1 evs2 : list Timed) :
  burst (evs1 ++ evs2) -> burst evs1 /\ burst evs2.
Proof.
  destruct evs1 as [|[now e] evs1]; simpl.
  - intros H; split; [exact I | exact H].
  - apply gaps_within_app.
Qed.

Lemma keys_of_append (s t : string) :
  keys_of (s ++ t) = (keys_of s ++ keys_of t)%list.
Proof. induction s as [|c s IH]; simpl; [reflexivity | now rewrite IH]. Qed.

Lemma keys_of_length (s : string) : List.length (keys_of s) = length s.
Proof. induction s as [|c s IH]; simpl; [reflexivity | now rewrite IH]. Qed.

(** C4. Scan reconstruction.  A burst that types the expected token twice,
    back to back (no gap between two consecutive key-downs above the
    threshold, no Enter), makes the parser emit exactly two token events, in
    order, whatever the refs held when the burst began.  The first token is
    emitted at the end of its own characters; what is retained after each
    match is the part of the buffer after the last occurrence of the
    pattern, which is empty since the match is found at the end. *)
Theorem back_to_back_tokens (r : Refs) (evs : list Timed) :
  keys evs = keys_of (SKU_PATTERN ++ SKU_PATTERN) ->
  burst evs ->
  snd (run r (firstn (length SKU_PATTERN) evs)) = [Token SKU_PATTERN] /\
  buffer (fst (run r (firstn (length SKU_PATTERN) evs))) = "" /\
  snd (run r evs) = [Token SKU_PATTERN; Token SKU_PATTERN] /\
  tokens (snd (run r evs)) = [SKU_PATTERN; SKU_PATTERN] /\
  buffer (fst (run r evs)) = "".
Proof.
  intros Hkeys Hburst.
  set (n := length SKU_PATTERN).
  assert (Hsplit : evs = (firstn n evs ++ skipn n evs)%list)
    by (symmetry; apply firstn_skipn).
  assert (H1 : keys (firstn n evs) = keys_of SKU_PATTERN).
  { unfold keys, Timed in *. rewrite <- firstn_map, Hkeys. reflexivity. }
  assert (H2 : keys (skipn n evs) = keys_of SKU_PATTERN).
  { unfold keys, Timed in *. rewrite <- skipn_map, Hkeys. reflexivity. }
  rewrite Hsplit in Hburst. apply burst_app in Hburst as [B1 B2].
  destruct (scan_token r _ H1 B1) as (r1 & R1 & E1).
  destruct (scan_token r1 _ H2 B2) as (r2 & R2 & E2).
  assert (R : run r evs = (r2, [Token SKU_PATTERN; Token SKU_PATTERN])).
  { rewrite Hsplit, run_app, R1; cbn [fst snd]. now rewrite R2. }
  rewrite R1, R; cbn [fst snd]. repeat split; assumption.
Qed.

Lemma back_to_back_tokens_witness :
  (keys (typed 1000 5 (SKU_PATTERN ++ SKU_PATTERN))
   = keys_of (SKU_PATTERN ++ SKU_PATTERN) /\
   burst (typed 1000 5 (SKU_PATTERN ++ SKU_PATTERN))) /\
  tokens (snd (run {| lastKeyTime := 990; buffer := "RIMO12";
                      isShiftPressed := false |}
                   (typed 1000 5 (SKU_PATTERN ++ SKU_PATTERN))))
  = [SKU_PATTERN; SKU_PATTERN].
Proof.
  assert (K : keys (typed 1000 5 (SKU_PATTERN ++ SKU_PATTERN))
              = keys_of (SKU_PATTERN ++ SKU_PATTERN)) by reflexivity.
  assert (B : burst (typed 1000 5 (SKU_PATTERN ++ SKU_PATTERN)))
    by (unfold SKU_PATTERN; cbn; unfold SCAN_TIMEOUT; repeat split; lia).
  split; [split; assumption |].
  apply (back_to_back_tokens
           {| lastKeyTime := 990; buffer := "RIMO12"; isShiftPressed := false |}
           _ K B).
Defined.

(** A key other than Escape, Shift and the Ctrl+D toggle that arrives more
    than [SCAN_TIMEOUT] after the last recorded key time is handled as on an
    empty buffer, and the buffer it leaves is a tail of that key. *)
Lemma reset_on_timeout
    (now : Z) (e : KeyboardEvent) (r : Refs) (stale : string) (rest : list Timed) :
  now - lastKeyTime r > SCAN_TIMEOUT ->
  key e <> "Escape" -> key e <> "Shift" ->
  ctrlKey e && (key e =? "d")%string = false ->
  handleKeyDown now e (set_buffer stale r) = handleKeyDown now e (set_buffer "" r) /\
  run (set_buffer stale r) ((now, e) :: rest)
  = run (set_buffer "" r) ((now, e) :: rest) /\
  exists x, key e = x ++ buffer (fst (handleKeyDown now e (set_buffer stale r))).
Proof.
  intros Hgap Hesc Hshift Hd.
  apply String.eqb_neq in Hesc, Hshift.
  assert (Hgt : (now - lastKeyTime r >? SCAN_TIMEOUT) = true)
    by (rewrite Z.gtb_ltb; apply Z.ltb_lt; lia).
  assert (E : handleKeyDown now e (set_buffer stale r)
              = handleKeyDown now e (set_buffer "" r)).
  { unfold handleKeyDown. rewrite Hesc, Hd, Hshift.
    cbn [set_buffer lastKeyTime]. rewrite Hgt. reflexivity. }
  split; [exact E | split].
  - cbn [run]. now rewrite E.
  - rewrite E. unfold handleKeyDown. rewrite Hesc, Hd, Hshift.
    cbn [set_buffer lastKeyTime]. rewrite Hgt. cbn [negb andb].
    destruct (key e =? "Enter")%string.
    + exists (key e).
      destruct (is_modifier (key e)); cbn; now rewrite append_empty_r.
    + destruct (is_modifier (key e)); cbn [negb].
      * exists (key e). cbn. now rewrite append_empty_r.
      * cbn [set_lastKeyTime set_buffer buffer append].
        destruct (endsWith (cap_buffer (key e)) SKU_PATTERN) eqn:M; cbn [fst buffer].
        -- rewrite remainder_after_match by (auto; discriminate).
           exists (key e). now rewrite append_empty_r.
        -- apply cap_buffer_tail.
Qed.

(** A key that is neither Escape, the Ctrl+D toggle nor a modifier records
    its arrival time. *)
Lemma lastKeyTime_recorded (now : Z) (e : KeyboardEvent) (r : Refs) :
  key e <> "Escape" -> ctrlKey e && (key e =? "d")%string = false ->
  is_modifier (key e) = false ->
  lastKeyTime (fst (handleKeyDown now e r)) = now.
Proof.
  intros Hesc Hd Hmod. apply String.eqb_neq in Hesc.
  assert (Hshift : (key e =? "Shift")%string = false).
  { unfold is_modifier in Hmod. now destruct (key e =? "Shift")%string. }
  unfold handleKeyDown. rewrite Hesc, Hd, Hshift, Hmod. cbn [negb andb].
  rewrite andb_true_r.
  destruct (key e =? "Enter")%string.
  - unfold processBuffer.
    destruct (now - lastKeyTime r >? SCAN_TIMEOUT);
      match goal with |- context [truthy ?b] => destruct (truthy b) end;
      reflexivity.
  - destruct (now - lastKeyTime r >? SCAN_TIMEOUT);
      match goal with |- context [endsWith ?b _] => destruct (endsWith b SKU_PATTERN) end;
      reflexivity.
Qed.

Lemma set_buffer_same (r : Refs) : set_buffer (buffer r) r = r.
Proof. now destruct r. Qed.

(** C5. Timeout reset.  In a stream where a key-down [e] follows a
    character (or Enter) key-down by more than [SCAN_TIMEOUT], [e] being
    neither Escape, Shift nor the Ctrl+D toggle, what the buffer held before
    the gap has no influence on [e] nor on any later event: the parser goes
    on as from an empty buffer, and the buffer [e] leaves is a tail of the
    key [e] itself.  No token emitted from then on can contain a character
    received before the gap. *)
Theorem timeout_discards_prefix
    (r : Refs) (before now : Z) (e_before e : KeyboardEvent) (rest : list Timed) :
  key e_before <> "Escape" ->
  ctrlKey e_before && (key e_before =? "d")%string = false ->
  is_modifier (key e_before) = false ->
  now - before > SCAN_TIMEOUT ->
  key e <> "Escape" -> key e <> "Shift" ->
  ctrlKey e && (key e =? "d")%string = false ->
  run (fst (handleKeyDown before e_before r)) ((now, e) :: rest)
  = run (set_buffer "" (fst (handleKeyDown before e_before r))) ((now, e) :: rest) /\
  exists x,
    key e = x ++ buffer (fst (handleKeyDown now e
                                (fst (handleKeyDown before e_before r)))).
Proof.
  intros Hesc0 Hd0 Hmod0 Hgap Hesc Hshift Hd.
  set (r1 := fst (handleKeyDown before e_before r)).
  assert (Ht : lastKeyTime r1 = before) by now apply lastKeyTime_recorded.
  assert (Hgap1 : now - lastKeyTime r1 > SCAN_TIMEOUT) by (rewrite Ht; exact Hgap).
  destruct (reset_on_timeout now e r1 (buffer r1) rest Hgap1 Hesc Hshift Hd)
    as (_ & Hrun & Htail).
  rewrite set_buffer_same in Hrun, Htail. split; assumption.
Qed.

Lemma timeout_discards_prefix_witness :
  ("9" <> "Escape" /\ is_modifier "9" = false /\
   1100 - 1000 > SCAN_TIMEOUT /\ "7" <> "Escape" /\ "7" <> "Shift") /\
  run (fst (handleKeyDown 1000 {| key := "9"; ctrlKey := false |}
              {| lastKeyTime := 995; buffer := "RIMO12005";
                 isShiftPressed := false |}))
      [(1100, {| key := "7"; ctrlKey := false |})]
  = run {| lastKeyTime := 1000; buffer := ""; isShiftPressed := false |}
        [(1100, {| key := "7"; ctrlKey := false |})].
Proof.
  assert (G : 1100 - 1000 > SCAN_TIMEOUT) by (unfold SCAN_TIMEOUT; lia).
  assert (N0 : "9" <> "Escape") by discriminate.
  assert (N1 : "7" <> "Escape") by discriminate.
  assert (N2 : "7" <> "Shift") by discriminate.
  split; [repeat split; assumption |].
  apply (proj1 (timeout_discards_prefix
                  {| lastKeyTime := 995; buffer := "RIMO12005";
                     isShiftPressed := false |}
                  1000 1100 {| key := "9"; ctrlKey := false |}
                  {| key := "7"; ctrlKey := false |} []
                  N0 eq_refl eq_refl G N1 N2 eq_refl)).
Defined.

(** What the handler does on the three modifier keys. *)
Lemma handleKeyDown_modifier (now : Z) (e : KeyboardEvent) (r : Refs) :
  (key e = "Shift" -> handleKeyDown now e r = (set_shift true r, [])) /\
  (key e = "Control" \/ key e = "Alt" ->
   handleKeyDown now e r =
   ((if now - lastKeyTime r >? SCAN_TIMEOUT then set_buffer "" r else r), [])).
Proof.
  split.
  - intros K. unfold handleKeyDown. rewrite K. cbn.
    now rewrite andb_false_r.
  - intros [K | K]; unfold handleKeyDown; rewrite K; cbn;
      rewrite andb_false_r, andb_true_r;
      destruct (now - lastKeyTime r >? SCAN_TIMEOUT); reflexivity.
Qed.

(** C7 (the handler departs from the claim here).  A Control key-down that
    arrives more than [SCAN_TIMEOUT] after the last recorded key time empties
    the buffer: the reset test excludes Shift only, while the two tests
    after it exclude Shift, Control and Alt.  The time stamp is kept and
    nothing is emitted. *)
Example control_after_gap_clears_buffer :
  handleKeyDown 2000 {| key := "Control"; ctrlKey := true |}
    {| lastKeyTime := 1000; buffer := "RIMO1200"; isShiftPressed := false |}
  = ({| lastKeyTime := 1000; buffer := ""; isShiftPressed := false |}, []).
Proof. reflexivity. Qed.

End ScannerFacts.

(** ** The bulk-scan ledger *)

Section LedgerFacts.
Import JsString Scanner.

Lemma truthy_nonempty (s : string) : s <> "" -> truthy s = true.
Proof. intros H; unfold truthy; apply String.eqb_neq in H; now rewrite H. Qed.

Lemma existsb_find (f : BulkItem -> bool) (l : list BulkItem) :
  existsb f l = match find f l with Some _ => true | None => false end.
Proof.
  induction l as [|x l IH]; simpl; [reflexivity|].
  destruct (f x); [reflexivity | exact IH].
Qed.

(** [findIndex] followed by the indexed update, read as one pass. *)
Lemma increment_found_cons (s : string) (x : BulkItem) (rest : list BulkItem) :
  increment_found s (x :: rest) =
  if sku_is s x then bump x :: rest else x :: increment_found s rest.
Proof.
  unfold increment_found; simpl.
  destruct (sku_is s x); [reflexivity|].
  destruct (findIndex (sku_is s) rest) as [i|]; simpl; [|reflexivity].
  destruct (nth_error rest i); reflexivity.
Qed.

Lemma sku_is_bump (k : string) (x : BulkItem) : sku_is k (bump x) = sku_is k x.
Proof. reflexivity. Qed.

Lemma sku_is_other (s k : string) (x : BulkItem) :
  k <> s -> sku_is s x = true -> sku_is k x = false.
Proof.
  unfold sku_is; intros Hne H; apply String.eqb_eq in H.
  apply String.eqb_neq; congruence.
Qed.

Lemma increment_found_skus (s : string) (l : list BulkItem) :
  map sku (increment_found s l) = map sku l.
Proof.
  induction l as [|x l IH]; [reflexivity|].
  rewrite increment_found_cons.
  destruct (sku_is s x); simpl; [reflexivity | now rewrite IH].
Qed.

Lemma increment_all_skus (s : string) (l : list BulkItem) :
  map sku (increment_all s l) = map sku l.
Proof.
  unfold increment_all; induction l as [|x l IH]; simpl; [reflexivity|].
  rewrite IH. now destruct (sku_is s x).
Qed.

Lemma increment_found_quantity (s : string) (l : list BulkItem) (q : Z) :
  quantity_in s l = Some q -> quantity_in s (increment_found s l) = Some (q + 1).
Proof.
  unfold quantity_in; induction l as [|x l IH]; simpl; [discriminate|].
  rewrite increment_found_cons.
  destruct (sku_is s x) eqn:E; simpl.
  - rewrite sku_is_bump, E; simpl. congruence.
  - rewrite E. exact IH.
Qed.

Lemma increment_all_quantity (s : string) (l : list BulkItem) (q : Z) :
  quantity_in s l = Some q -> quantity_in s (increment_all s l) = Some (q + 1).
Proof.
  unfold quantity_in, increment_all; induction l as [|x l IH]; simpl; [discriminate|].
  destruct (sku_is s x) eqn:E; simpl.
  - rewrite sku_is_bump, E; simpl. congruence.
  - rewrite E. exact IH.
Qed.

Lemma increment_found_frame (s k : string) (l : list BulkItem) :
  k <> s -> quantity_in k (increment_found s l) = quantity_in k l.
Proof.
  intros Hne; unfold quantity_in; induction l as [|x l IH]; [reflexivity|].
  rewrite increment_found_cons.
  destruct (sku_is s x) eqn:E; simpl.
  - now rewrite sku_is_bump, (sku_is_other s k x Hne E).
  - destruct (sku_is k x); [reflexivity | exact IH].
Qed.

Lemma increment_all_frame (s k : string) (l : list BulkItem) :
  k <> s -> quantity_in k (increment_all s l) = quantity_in k l.
Proof.
  intros Hne; unfold quantity_in, increment_all;
    induction l as [|x l IH]; [reflexivity|]; simpl.
  destruct (sku_is s x) eqn:E.
  - rewrite sku_is_bump, (sku_is_other s k x Hne E). exact IH.
  - destruct (sku_is k x); [reflexivity | exact IH].
Qed.

Lemma quantity_in_add_new (s k : string) (l : list BulkItem) :
  quantity_in k (add_new s l) =
  match quantity_in k l with
  | Some q => Some q
  | None => if (s =? k)%string then Some 1 else None
  end.
Proof.
  unfold quantity_in, add_new; induction l as [|x l IH]; simpl.
  - unfold sku_is; simpl. now destruct (s =? k)%string.
  - destruct (sku_is k x); [reflexivity | exact IH].
Qed.

(** The two entry points on a settled component, by cases on whether the
    ledger already shows the sku. *)
Lemma scan_step_cases (items : list BulkItem) (s : string) :
  s <> "" ->
  scan_step items s =
  match quantity_in s items with
  | Some _ => increment_found s items
  | None => add_new s items
  end.
Proof.
  intros Hs; unfold scan_step, processSku_bulk, bulkItemsMap_has, quantity_in.
  rewrite (truthy_nonempty s Hs), existsb_find.
  now destruct (find (sku_is s) items).
Qed.

Lemma manual_step_cases (items : list BulkItem) (s : string) :
  s <> "" ->
  manual_step items s =
  match quantity_in s items with
  | Some _ => increment_all s items
  | None => add_new s items
  end.
Proof.
  intros Hs; unfold manual_step, handleManualSubmit_bulk, quantity_in.
  rewrite (truthy_nonempty s Hs).
  now destruct (find (sku_is s) items).
Qed.



Lemma quantity_in_fresh (s : string) (l : list BulkItem) (q : Z) :
  quantity_in s l = None ->
  quantity_in s (l ++ [ {| sku := s; quantity := q |} ]) = Some q.
Proof.
  intros H. change (l ++ _)%list with (l ++ [ {| sku := s; quantity := q |} ])%list.
  unfold quantity_in in *; induction l as [|y l IH]; simpl in *.
  - unfold sku_is; simpl. now rewrite String.eqb_refl.
  - destruct (sku_is s y); [discriminate | now apply IH].
Qed.








Lemma kept_refl (l : list BulkItem) :
  Forall2 (fun a b => sku b = sku a /\ quantity a <= quantity b) l l.
Proof. induction l; constructor; [split; [reflexivity | lia] | assumption]. Qed.

Lemma extends_same_length (l l' : list BulkItem) :
  Forall2 (fun a b => sku b = sku a /\ quantity a <= quantity b) l l' ->
  extends l l'.
Proof. intros H; exists l', []; split; [now rewrite app_nil_r | exact H]. Qed.

Lemma extends_refl (l : list BulkItem) : extends l l.
Proof. apply extends_same_length, kept_refl. Qed.

Lemma increment_found_extends (s : string) (l : list BulkItem) :
  extends l (increment_found s l).
Proof.
  apply extends_same_length. induction l as [|x l IH]; [constructor|].
  rewrite increment_found_cons. destruct (sku_is s x).
  - constructor; [simpl; split; [reflexivity | lia] | apply kept_refl].
  - constructor; [split; [reflexivity | lia] | exact IH].
Qed.

Lemma increment_all_extends (s : string) (l : list BulkItem) :
  extends l (increment_all s l).
Proof.
  apply extends_same_length. unfold increment_all.
  induction l as [|x l IH]; simpl; constructor; [|exact IH].
  destruct (sku_is s x); simpl; split; try reflexivity; lia.
Qed.

Lemma add_new_extends (s : string) (l : list BulkItem) : extends l (add_new s l).
Proof.
  exists l, [ {| sku := s; quantity := 1 |} ]; split;
    [reflexivity | apply kept_refl].
Qed.

Lemma quantityOf_app (k : string) (l1 l2 : list BulkItem) :
  quantityOf k (l1 ++ l2) = quantityOf k l1 + quantityOf k l2.
Proof. induction l1 as [|x l1 IH]; simpl; [reflexivity | rewrite IH; lia]. Qed.

Lemma increment_found_total (s k : string) (l : list BulkItem) :
  quantityOf k l <= quantityOf k (increment_found s l).
Proof.
  induction l as [|x l IH]; [reflexivity|].
  rewrite increment_found_cons.
  destruct (sku_is s x); simpl; [rewrite sku_is_bump|];
    destruct (sku_is k x); simpl; lia.
Qed.

Lemma increment_all_total (s k : string) (l : list BulkItem) :
  quantityOf k l <= quantityOf k (increment_all s l).
Proof.
  unfold increment_all; induction l as [|x l IH]; simpl; [lia|].
  destruct (sku_is s x); simpl; [rewrite sku_is_bump|];
    destruct (sku_is k x); simpl; lia.
Qed.

Lemma add_new_total (s k : string) (l : list BulkItem) :
  quantityOf k l <= quantityOf k (add_new s l).
Proof.
  unfold add_new; rewrite quantityOf_app; simpl.
  destruct (sku_is k _); simpl; lia.
Qed.

(** C10. In bulk mode a token dispatch, scanned or manually submitted,
    never removes an entry and never lowers a quantity, whichever render the
    handler closes over and whichever state its updater is applied to: every
    entry stays in place with its sku and a quantity at least as large, so
    the quantity accumulated for each sku does not decrease. *)
Theorem bulk_dispatch_monotone (rendered prev : list BulkItem) (s : string) :
  extends prev (processSku_bulk rendered s prev) /\
  extends prev (handleManualSubmit_bulk rendered s prev) /\
  (forall k, quantityOf k prev <= quantityOf k (processSku_bulk rendered s prev)) /\
  (forall k, quantityOf k prev
             <= quantityOf k (handleManualSubmit_bulk rendered s prev)).
Proof.
  unfold processSku_bulk, handleManualSubmit_bulk.
  destruct (truthy s).
  - destruct (bulkItemsMap_has rendered s), (find (sku_is s) rendered);
      repeat split;
      auto using increment_found_extends, increment_all_extends, add_new_extends,
                 increment_found_total, increment_all_total, add_new_total.
  - repeat split; try apply extends_refl; intros; lia.
Qed.

(** The explicit actions are the ones that shrink the ledger. *)
Lemma explicit_actions_remove (x : BulkItem) (rest : list BulkItem) :
  handleBulkComplete true (x :: rest) = [] /\
  clear_items (x :: rest) = [] /\
  delete_at 0 (x :: rest) = rest /\
  ~ extends (x :: rest) [].
Proof.
  repeat split. intros (kept & added & E & F).
  symmetry in E; apply app_eq_nil in E as [-> _]. inversion F.
Qed.

End LedgerFacts.

(** ** Markup resolution *)

Section MarkupFacts.
Import Markup.

(** On a table none of whose rules carries a zero fraction, the resolution
    is by scope alone. *)
Lemma getMarkupFrom_nonzero (settings : list MarkupSetting) (m c : string) :
  forallb (fun rule => truthy (markup rule)) settings = true ->
  getMarkupFrom settings m c = resolve_by_scope settings m c.
Proof.
  intros Hall; unfold getMarkupFrom, resolve_by_scope.
  assert (Hfind : forall f rule, find f settings = Some rule ->
                                 truthy (markup rule) = true).
  { intros f rule Hf. apply find_some in Hf as [Hin _].
    rewrite forallb_forall in Hall. now apply Hall. }
  unfold js_or, js_or_number.
  destruct (find (matches manufacturer m) settings) as [rm|] eqn:Em; simpl.
  - now rewrite !(Hfind _ _ Em).
  - destruct (find (matches category c) settings) as [rc|] eqn:Ec; simpl;
      [now rewrite !(Hfind _ _ Ec) | reflexivity].
Qed.

(** So it is on the table the module ships. *)
Lemma getMarkupForProduct_by_scope (m c : string) :
  getMarkupForProduct m c = resolve_by_scope defaultMarkupSettings m c.
Proof. apply getMarkupFrom_nonzero. reflexivity. Qed.

(** In the shipped table a rule is the first, and so the only one, of its
    scope and name. *)
Lemma shipped_rule_is_found (rule : MarkupSetting) :
  In rule defaultMarkupSettings ->
  find (matches (type rule) (name rule)) defaultMarkupSettings = Some rule.
Proof.
  intros H; repeat (destruct H as [<- | H]; [reflexivity|]); destruct H.
Qed.

Lemma matches_true (t : SettingType) (n : string) (rule : MarkupSetting) :
  matches t n rule = true -> type rule = t /\ name rule = n.
Proof.
  unfold matches; intros H; apply andb_true_iff in H as [Ht Hn].
  apply String.eqb_eq in Hn. split; [|exact Hn].
  destruct (type rule), t; try reflexivity; discriminate.
Qed.

Lemma no_rule_not_found (settings : list MarkupSetting) (t : SettingType)
    (n : string) :
  (forall rule, In rule settings -> type rule = t -> name rule <> n) ->
  find (matches t n) settings = None.
Proof.
  intros Hno. destruct (find (matches t n) settings) as [rule|] eqn:E;
    [|reflexivity].
  apply find_some in E as [Hin Hm]. apply matches_true in Hm as [Ht Hn].
  now destruct (Hno rule Hin Ht).
Qed.

(** C9. Markup resolution.  For every manufacturer and category,
    [getMarkupForProduct] resolves by scope on the table of the module:
    it returns the fraction of the manufacturer rule of that name when the
    table holds one; otherwise the fraction of the category rule of that
    name when the table holds one; otherwise the default 0.2. *)
Theorem markup_resolution_by_scope (m c : string) :
  getMarkupForProduct m c = resolve_by_scope defaultMarkupSettings m c /\
  (forall rule,
     In rule defaultMarkupSettings -> type rule = manufacturer ->
     name rule = m -> getMarkupForProduct m c = markup rule) /\
  ((forall rule,
      In rule defaultMarkupSettings -> type rule = manufacturer ->
      name rule <> m) ->
   (forall rule,
      In rule defaultMarkupSettings -> type rule = category ->
      name rule = c -> getMarkupForProduct m c = markup rule) /\
   ((forall rule,
       In rule defaultMarkupSettings -> type rule = category ->
       name rule <> c) ->
    getMarkupForProduct m c = default_markup)).
Proof.
  split; [apply getMarkupForProduct_by_scope|]. split.
  - intros rule Hin Ht Hn.
    rewrite getMarkupForProduct_by_scope. unfold resolve_by_scope.
    rewrite <- Hn, <- Ht, (shipped_rule_is_found rule Hin). reflexivity.
  - intros Hnom. split.
    + intros rule Hin Ht Hn.
      rewrite getMarkupForProduct_by_scope. unfold resolve_by_scope.
      rewrite (no_rule_not_found _ _ _ Hnom).
      rewrite <- Hn, <- Ht, (shipped_rule_is_found rule Hin). reflexivity.
    + intros Hnoc.
      rewrite getMarkupForProduct_by_scope. unfold resolve_by_scope.
      now rewrite (no_rule_not_found _ _ _ Hnom), (no_rule_not_found _ _ _ Hnoc).
Qed.

(** The body of the function, run on another table: a rule whose fraction
    is 0 would be passed over by [||].  With such a rule for Cartier and a
    category rule for Rings the result is the category fraction 0.25; with
    no category rule it is the default 0.2.  The table of the module holds
    no such rule, and no caller can hand one in. *)
Example zero_markup_rule_is_passed_over :
  getMarkupFrom
    [ mkSetting "1" manufacturer "Cartier" 0%Q;
      mkSetting "6" category "Rings" (25 # 100) ] "Cartier" "Rings" = 25 # 100 /\
  resolve_by_scope
    [ mkSetting "1" manufacturer "Cartier" 0%Q;
      mkSetting "6" category "Rings" (25 # 100) ] "Cartier" "Rings" = 0%Q /\
  getMarkupFrom [ mkSetting "1" manufacturer "Cartier" 0%Q ] "Cartier" "Rings"
  = default_markup.
Proof. repeat split. Qed.

End MarkupFacts.

(** ** The product form: validation and the codes *)

Section NumberFacts.
Import ProductForm.





(** What [Number] makes of some texts. *)
Example Number_examples :
  Number "" = Num 0 /\ Number "  " = Num 0 /\ Number "25000" = Num 25000 /\
  Number "007" = Num 7 /\ Number " 12 " = Num 12 /\ Number "-5" = Num (-5) /\
  Number "+5" = Num 5 /\ Number "99.5" = Num (199 # 2) /\
  Number ".5" = Num (1 # 2) /\ Number "5." = Num 5 /\
  Number "1e3" = Num 1000 /\ Number "25e-1" = Num (5 # 2) /\
  Number "-1.5E+2" = Num (-150) /\
  Number "0x1F" = Num 31 /\ Number "0b101" = Num 5 /\ Number "0o17" = Num 15 /\
  Number "9007199254740993" = Num 9007199254740992 /\
  Number "0.1" = Num (3602879701896397 # 36028797018963968) /\
  Number "Infinity" = Infinity false /\ Number "-Infinity" = Infinity true /\
  Number "abc" = NaN /\ Number "12px" = NaN /\ Number "1 2" = NaN /\
  Number "." = NaN /\ Number "-" = NaN /\ Number "1e" = NaN /\
  Number "0x" = NaN /\ Number "-0x10" = NaN /\ Number "NaN" = NaN /\
  Number "1,000" = NaN /\ Number "--1" = NaN.
Proof. repeat split; vm_compute; reflexivity. Qed.

End NumberFacts.

Section FormFacts.
Import ProductForm.

Variable World : Type.
Variable generateBarcodes : World -> BarcodeArgs -> Outcome.


(** The preview path hands the prices to [generateBarcodes] as soon as the
    four fields are filled and both prices are numbers above 0, whatever
    their order and whatever the buy price. *)
Lemma preview_calls_encoder (w : World) (f : FormData) :
  JsString.truthy (manufacturer f) = true ->
  JsString.truthy (category f) = true ->
  JsString.truthy (wholesale_price f) = true ->
  JsString.truthy (retail_price f) = true ->
  isNaN (Number (wholesale_price f)) = false ->
  js_le (Number (wholesale_price f)) (Num 0) = false ->
  isNaN (Number (retail_price f)) = false ->
  js_le (Number (retail_price f)) (Num 0) = false ->
  fst (generateBarcode World generateBarcodes w f) = [submit_args f].
Proof.
  intros Hm Hc Hwt Hrt Hw Hwp Hr Hrp. unfold generateBarcode.
  rewrite Hm, Hc, Hwt, Hrt, Hw, Hwp, Hr, Hrp; cbn [andb orb].
  destruct (generateBarcodes w (submit_args f)) as [msg | [b|]];
    [reflexivity | | reflexivity].
  destruct (JsString.truthy (sku b)); reflexivity.
Qed.



(** The arguments handed to [generateBarcodes] do not read the buy price. *)
Lemma submit_args_buy_price (b : string) (f : FormData) :
  submit_args (with_buy_price b f) = submit_args f.
Proof. reflexivity. Qed.

(** C3. Buy-price confidentiality.  Two submissions that differ only in
    the buy price and both succeed produce the same sku, cipher, QR payload
    and Code 128 payload; the preview path does not read the buy price at
    all; and no call of [generateBarcodes] on either path is given a fifth
    argument, the prices it receives being the wholesale and retail ones. *)
Theorem buy_price_not_in_codes
    (w : World) (f : FormData) (b1 b2 : string) (p1 p2 : ProductData) :
  snd (handleSubmit World generateBarcodes w (with_buy_price b1 f)) = Submitted p1 ->
  snd (handleSubmit World generateBarcodes w (with_buy_price b2 f)) = Submitted p2 ->
  (pd_sku p1, pd_cipher p1, pd_qr_code p1, pd_code128 p1)
  = (pd_sku p2, pd_cipher p2, pd_qr_code p2, pd_code128 p2) /\
  generateBarcode World generateBarcodes w (with_buy_price b1 f)
  = generateBarcode World generateBarcodes w (with_buy_price b2 f) /\
  Forall (fun a => a = submit_args f /\ arg_fifth a = None)
         (fst (handleSubmit World generateBarcodes w (with_buy_price b1 f))
          ++ fst (generateBarcode World generateBarcodes w (with_buy_price b1 f))).
Proof.
  intros H1 H2. split; [|split].
  - revert H1 H2. unfold handleSubmit.
    rewrite !submit_args_buy_price.
    cbn [with_buy_price buy_price wholesale_price retail_price name description
         manufacturer category stock_level image_url additional_info].
    destruct (missingFields (with_buy_price b1 f)); [|discriminate].
    destruct (missingFields (with_buy_price b2 f)); [|discriminate].
    destruct (js_le (Number b1) (Num 0)); [discriminate|].
    destruct (js_le (Number b2) (Num 0)); [discriminate|].
    destruct (js_le (Number (wholesale_price f)) (Number b1)); [discriminate|].
    destruct (js_le (Number (wholesale_price f)) (Number b2)); [discriminate|].
    destruct (js_le _ _); [discriminate|].
    destruct (generateBarcodes w (submit_args f)) as [msg | [b|]];
      try discriminate.
    destruct (_ && _ && _); [|discriminate].
    cbn [snd]. intros [= <-] [= <-]. reflexivity.
  - reflexivity.
  - apply Forall_app; split.
    + unfold handleSubmit. rewrite submit_args_buy_price.
      repeat match goal with
             | |- context [match ?x with _ => _ end] => destruct x
             end; cbn [fst]; repeat constructor.
    + unfold generateBarcode. rewrite submit_args_buy_price.
      repeat match goal with
             | |- context [match ?x with _ => _ end] => destruct x
             end; cbn [fst]; repeat constructor.
Qed.

End FormFacts.

Section FormExamples.
Import ProductForm.




Lemma buy_price_not_in_codes_witness :
  (exists p1 p2,
     snd (handleSubmit unit accepting_generateBarcodes tt
            (with_buy_price "8000" ordered_form)) = Submitted p1 /\
     snd (handleSubmit unit accepting_generateBarcodes tt
            (with_buy_price "9999" ordered_form)) = Submitted p2) /\
  codes_of (snd (handleSubmit unit accepting_generateBarcodes tt
                   (with_buy_price "8000" ordered_form)))
  = codes_of (snd (handleSubmit unit accepting_generateBarcodes tt
                     (with_buy_price "9999" ordered_form))).
Proof.
  split; [do 2 eexists; split; reflexivity |].
  exact (f_equal Some
           (proj1 (buy_price_not_in_codes unit accepting_generateBarcodes tt
                     ordered_form "8000" "9999" _ _ eq_refl eq_refl))).
Defined.

End FormExamples.

(** ** Bar patterns *)

Section BarFacts.
Import ProductForm.

Lemma app_same_length (A : Type) (l1 l2 l3 l4 : list A) :
  List.length l1 = List.length l3 -> (l1 ++ l2 = l3 ++ l4)%list ->
  l1 = l3 /\ l2 = l4.
Proof.
  revert l3; induction l1 as [|x l1 IH]; intros [|y l3] Hl H; simpl in *;
    try discriminate; [now split|].
  injection H as -> H. injection Hl as Hl.
  destruct (IH l3 Hl H) as [-> ->]. now split.
Qed.

Lemma pattern_chars_app (s t : string) :
  pattern_chars (s ++ t) = (pattern_chars s ++ pattern_chars t)%list.
Proof.
  induction s as [|c s IH]; simpl; [reflexivity|].
  now rewrite IH, app_assoc.
Qed.

Lemma code128_chars_app (s t : string) (i : nat) :
  code128_chars i (s ++ t)
  = (code128_chars i s ++ code128_chars (i + length s) t)%list.
Proof.
  revert i; induction s as [|c s IH]; intros i; simpl.
  - now rewrite Nat.add_0_r.
  - rewrite IH. replace (S i + length s)%nat with (i + S (length s))%nat by lia.
    now rewrite <- !app_assoc.
Qed.

Lemma char_pattern_length (c : ascii) : List.length (char_pattern c) = 6%nat.
Proof.
  unfold char_pattern.
  repeat match goal with |- context [if ?b then _ else _] => destruct b end;
    reflexivity.
Qed.

Lemma variation_pattern_length (c : ascii) :
  List.length (variation_pattern c) = 6%nat.
Proof.
  unfold variation_pattern.
  repeat match goal with |- context [if ?b then _ else _] => destruct b end;
    reflexivity.
Qed.

Lemma position_pattern_length (i : nat) : List.length (position_pattern i) = 6%nat.
Proof. unfold position_pattern; now destruct (i mod 2 =? 0)%nat. Qed.

(** The per-character group tells the four kinds of character apart, and
    nothing more. *)
Lemma char_pattern_kind (a b : ascii) :
  char_pattern a = char_pattern b <-> char_kind a = char_kind b.
Proof.
  unfold char_pattern, char_kind.
  repeat match goal with |- context [if ?c then _ else _] => destruct c end;
    split; intros H; try reflexivity; discriminate H.
Qed.

(** The variation group tells the three residues apart, and nothing more. *)
Lemma variation_pattern_residue (a b : ascii) :
  variation_pattern a = variation_pattern b <-> residue_class a = residue_class b.
Proof.
  unfold variation_pattern, residue_class.
  assert (Ha := Nat.mod_upper_bound (charCode a mod 32) 3).
  assert (Hb := Nat.mod_upper_bound (charCode b mod 32) 3).
  set (ra := ((charCode a mod 32) mod 3)%nat) in *.
  set (rb := ((charCode b mod 32) mod 3)%nat) in *.
  destruct (ra =? 0)%nat eqn:A0; destruct (rb =? 0)%nat eqn:B0;
    try destruct (ra =? 1)%nat eqn:A1; try destruct (rb =? 1)%nat eqn:B1;
    repeat match goal with
           | H : (_ =? _)%nat = true |- _ => apply Nat.eqb_eq in H
           | H : (_ =? _)%nat = false |- _ => apply Nat.eqb_neq in H
           end;
    split; intros H; try discriminate H; try reflexivity; lia.
Qed.

(** The generated sequences with one character singled out. *)
Lemma generateBarcodePattern_at (pre post : string) (c : ascii) :
  generateBarcodePattern (pre ++ String c post)
  = ([1; 2; 1; 2; 3; 2; 1]%nat ++ pattern_chars pre
       ++ char_pattern c ++ pattern_chars post ++ [2; 3; 3; 1; 1; 1; 2]%nat)%list.
Proof.
  unfold generateBarcodePattern. rewrite pattern_chars_app. cbn [pattern_chars].
  now rewrite <- !app_assoc.
Qed.

Lemma generateCode128Bars_at (pre post : string) (c : ascii) :
  generateCode128Bars (pre ++ String c post)
  = ([2; 1; 1; 2; 3; 2]%nat ++ code128_chars 0 pre
       ++ position_pattern (length pre) ++ variation_pattern c
       ++ code128_chars (S (length pre)) post ++ [2; 3; 3; 1; 1; 1; 2]%nat)%list.
Proof.
  unfold generateCode128Bars. rewrite code128_chars_app. cbn [code128_chars].
  now rewrite <- !app_assoc.
Qed.

(** C8, as the code has it.  Neither generator emits a checksum: each
    sequence is the start group, the groups of the characters in order, and
    the stop group.  A substitution changes the sequence exactly when it
    changes the class of the character (digit, upper case, lower case or
    other for [generateBarcodePattern]; the char code modulo 32 modulo 3 for
    [generateCode128Bars]); a transposition of two adjacent characters
    changes it exactly when their classes differ. *)
Theorem bars_tell_classes_only (pre post : string) (a b : ascii) :
  (generateBarcodePattern (pre ++ String a post)
   = generateBarcodePattern (pre ++ String b post)
   <-> char_kind a = char_kind b) /\
  (generateBarcodePattern (pre ++ String a (String b post))
   = generateBarcodePattern (pre ++ String b (String a post))
   <-> char_kind a = char_kind b) /\
  (generateCode128Bars (pre ++ String a post)
   = generateCode128Bars (pre ++ String b post)
   <-> residue_class a = residue_class b) /\
  (generateCode128Bars (pre ++ String a (String b post))
   = generateCode128Bars (pre ++ String b (String a post))
   <-> residue_class a = residue_class b).
Proof.
  rewrite !generateBarcodePattern_at, !generateCode128Bars_at.
  cbn [pattern_chars code128_chars].
  rewrite <- char_pattern_kind, <- variation_pattern_residue.
  repeat split; intros H; try (rewrite H; reflexivity).
  - apply app_inv_head, app_inv_head in H.
    apply app_same_length in H; [apply H | now rewrite !char_pattern_length].
  - apply app_inv_head, app_inv_head in H.
    apply app_same_length in H; [apply H | now rewrite !char_pattern_length].
  - apply app_inv_head, app_inv_head, app_inv_head in H.
    apply app_same_length in H; [apply H | now rewrite !variation_pattern_length].
  - apply app_inv_head, app_inv_head, app_inv_head in H.
    apply app_same_length in H; [apply H | now rewrite !variation_pattern_length].
Qed.

(** C8, as stated, fails: the sequences of both generators, hence any part
    of them, are the same for [A] and [D] (a substitution) and for [AD] and
    [DA] (a transposition of distinct adjacent characters). *)
Lemma bars_blind_to_substitution_and_transposition :
  "A" <> "D" /\ "AD" <> "DA" /\
  generateBarcodePattern "A" = generateBarcodePattern "D" /\
  generateBarcodePattern "AD" = generateBarcodePattern "DA" /\
  generateCode128Bars "A" = generateCode128Bars "D" /\
  generateCode128Bars "AD" = generateCode128Bars "DA".
Proof. repeat split; discriminate. Qed.

End BarFacts.

(** ** The cipher codec *)

Section CipherFacts.
Import CipherCodec.

Variable alphabet : list ascii.
Variable width : nat.


Lemma digit_value_bound (al : list ascii) (c : ascii) (d : Z) :
  digit_value al c = Some d -> 0 <= d < Z.of_nat (List.length al).
Proof.
  revert d; induction al as [|a al IH]; intros d H; simpl in H; [discriminate|].
  destruct (Ascii.eqb a c).
  - injection H as <-. simpl List.length. lia.
  - destruct (digit_value al c) as [d'|]; [|discriminate].
    injection H as <-. specialize (IH d' eq_refl). simpl List.length. lia.
Qed.





(** Whatever [decode] reads fits the width: no price at or above the
    capacity [N ^ width] can come out of it. *)
Lemma group_value_bound (l : list ascii) (acc v : Z) :
  0 <= acc -> group_value alphabet acc l = Some v ->
  acc * N alphabet ^ Z.of_nat (List.length l) <= v
  < (acc + 1) * N alphabet ^ Z.of_nat (List.length l).
Proof.
  revert acc; induction l as [|c l IH]; intros acc Hacc H; simpl in H.
  - injection H as <-. simpl. lia.
  - destruct (digit_value alphabet c) as [d|] eqn:Ed; [|discriminate].
    apply digit_value_bound in Ed. fold (N alphabet) in Ed.
    apply IH in H; [|nia].
    simpl List.length. rewrite Nat2Z.inj_succ, Z.pow_succ_r by lia.
    assert (0 <= N alphabet ^ Z.of_nat (List.length l))
      by (apply Z.pow_nonneg; lia).
    nia.
Qed.

Lemma decode_bounded (cipher : string) (wholesale retail : Z) :
  decode alphabet width cipher = Some (wholesale, retail) ->
  0 <= wholesale < N alphabet ^ Z.of_nat width /\
  0 <= retail < N alphabet ^ Z.of_nat width.
Proof.
  unfold decode. set (cs := list_ascii_of_string cipher).
  destruct (List.length cs =? 2 * width)%nat eqn:El; [|discriminate].
  apply Nat.eqb_eq in El.
  destruct (group_value alphabet 0 (firstn width cs)) as [a|] eqn:Ea; [|discriminate].
  destruct (group_value alphabet 0 (skipn width cs)) as [b|] eqn:Eb; [|discriminate].
  intros [= <- <-].
  apply group_value_bound in Ea, Eb; try lia.
  rewrite length_firstn in Ea. rewrite length_skipn in Eb.
  replace (Nat.min width (List.length cs)) with width in Ea by lia.
  replace (List.length cs - width)%nat with width in Eb by lia.
  lia.
Qed.




(** No encoder can make a price at or above the capacity come back. *)
Lemma no_roundtrip_beyond_capacity (cipher : string) (wholesale retail : Z) :
  N alphabet ^ Z.of_nat width <= retail ->
  decode alphabet width cipher <> Some (wholesale, retail).
Proof. intros Hr H; apply decode_bounded in H; lia. Qed.

End CipherFacts.

(** Counting the ciphers of a fixed width. *)

Section CipherCount.
Import CipherCodec.





End CipherCount.

Section CipherExamples.
Import CipherCodec.




(** So it is in the model: with the 32-digit alphabet and groups of any
    width, the pair of prices [(1, 32 ^ width + 1)], which satisfies
    [retail > wholesale > 0], is not recovered, whatever the encoder writes
    for it. *)
Lemma price_beyond_capacity_not_recovered (width : nat) (cipher : string) :
  0 < 1 /\ 1 < 32 ^ Z.of_nat width + 1 /\
  decode unambiguous width cipher <> Some (1, 32 ^ Z.of_nat width + 1).
Proof.
  assert (0 < 32 ^ Z.of_nat width) by (apply Z.pow_pos_nonneg; lia).
  repeat split; try lia.
  apply no_roundtrip_beyond_capacity.
  change (N unambiguous) with 32. lia.
Qed.

End CipherExamples.

(** ** Further properties of the scan-stream parser *)

Section ScannerMore.
Import JsString Scanner.

Lemma length_drop (n : nat) (s : string) : length (drop n s) = (length s - n)%nat.
Proof.
  revert s; induction n as [|n IH]; intros [|c s]; simpl; try reflexivity.
  apply IH.
Qed.

Lemma cap_buffer_length (b : string) : (length (cap_buffer b) <= 1000)%nat.
Proof.
  unfold cap_buffer, substring_from.
  destruct (1000 <? length b)%nat eqn:E.
  - apply Nat.ltb_lt in E. rewrite length_drop. lia.
  - apply Nat.ltb_ge in E. exact E.
Qed.

Lemma handleKeyDown_buffer_length (now : Z) (e : KeyboardEvent) (r : Refs) :
  (length (buffer r) <= 1000)%nat ->
  (length (buffer (fst (handleKeyDown now e r))) <= 1000)%nat.
Proof.
  intros H. unfold handleKeyDown.
  destruct (key e =? "Escape")%string; [exact H|].
  destruct (ctrlKey e && (key e =? "d")%string); [exact H|].
  destruct (key e =? "Shift")%string; [exact H|].
  cbv zeta.
  set (r1 := if (now - lastKeyTime r >? SCAN_TIMEOUT) && negb false
             then set_buffer "" r else r).
  assert (H1 : (length (buffer r1) <= 1000)%nat)
    by (subst r1; destruct (_ && _); cbn; [lia | exact H]).
  clearbody r1.
  destruct (negb (is_modifier (key e))).
  2: { destruct (key e =? "Enter")%string; [|exact H1].
       unfold processBuffer. destruct (truthy (buffer r1)); cbn; [lia | exact H1]. }
  set (r2 := set_lastKeyTime now r1).
  assert (H2 : (length (buffer r2) <= 1000)%nat) by exact H1.
  clearbody r2.
  destruct (key e =? "Enter")%string.
  - unfold processBuffer. destruct (truthy (buffer r2)); cbn; [lia | exact H2].
  - pose proof (cap_buffer_length (buffer r2 ++ key e)) as Hc.
    destruct (endsWith _ SKU_PATTERN); cbn [fst set_buffer buffer]; [|exact Hc].
    unfold substring_from. rewrite length_drop. lia.
Qed.

(** X1. The scan buffer never outgrows the cap: from refs whose buffer
    holds at most 1000 characters, no stream of key-downs, whatever the
    keys and their timing, leaves more than 1000 characters in it. *)
Theorem buffer_stays_bounded (r : Refs) (evs : list Timed) :
  (length (buffer r) <= 1000)%nat ->
  (length (buffer (fst (run r evs))) <= 1000)%nat.
Proof.
  revert r; induction evs as [|[now e] evs IH]; intros r H; [exact H|].
  cbn [run].
  pose proof (handleKeyDown_buffer_length now e r H) as H1.
  destruct (handleKeyDown now e r) as [r1 out1]. cbn [fst] in H1.
  specialize (IH r1 H1). destruct (run r1 evs) as [r2 out2]. exact IH.
Qed.

Lemma buffer_stays_bounded_witness :
  (length (buffer initialRefs) <= 1000)%nat /\
  (length (buffer (fst (run initialRefs
                          (typed 0 5 (copies 120 "0123456789"))))) <= 1000)%nat.
Proof.
  assert (H : (length (buffer initialRefs) <= 1000)%nat) by (simpl; lia).
  split; [exact H |].
  apply (buffer_stays_bounded initialRefs _ H).
Defined.

Lemma endsWith_shorter (s p : string) :
  (length s < length p)%nat -> endsWith s p = false.
Proof.
  intros H; unfold endsWith.
  replace (length p <=? length s)%nat with false
    by (symmetry; apply Nat.leb_gt; exact H).
  reflexivity.
Qed.

Lemma cap_buffer_short (b : string) : (length b <= 1000)%nat -> cap_buffer b = b.
Proof.
  intros H; unfold cap_buffer.
  replace (1000 <? length b)%nat with false
    by (symmetry; apply Nat.ltb_ge; exact H).
  reflexivity.
Qed.

(** One key-down that comes after the timeout and whose key is shorter than
    the pattern: nothing is dispatched, and the recorded time does not move
    past the event. *)
Lemma handleKeyDown_after_pause (now : Z) (e : KeyboardEvent) (r : Refs) :
  now - lastKeyTime r > SCAN_TIMEOUT ->
  (length (key e) < length SKU_PATTERN)%nat ->
  tokens (snd (handleKeyDown now e r)) = [] /\
  lastKeyTime (fst (handleKeyDown now e r)) <= now.
Proof.
  intros Hgap Hlen. unfold SCAN_TIMEOUT in Hgap.
  assert (Hgt : (now - lastKeyTime r >? SCAN_TIMEOUT) = true)
    by (rewrite Z.gtb_ltb; apply Z.ltb_lt; unfold SCAN_TIMEOUT; lia).
  unfold handleKeyDown.
  destruct (key e =? "Escape")%string; [cbn; split; [reflexivity | lia]|].
  destruct (ctrlKey e && (key e =? "d")%string); [cbn; split; [reflexivity | lia]|].
  destruct (key e =? "Shift")%string; [cbn; split; [reflexivity | lia]|].
  rewrite Hgt. cbn [negb andb].
  destruct (is_modifier (key e)); cbn [negb];
    destruct (key e =? "Enter")%string; unfold processBuffer;
    cbn [set_buffer set_lastKeyTime buffer truthy append];
    try (cbn; split; [reflexivity | lia]).
  assert (Hl11 : (length (key e) < 11)%nat) by exact Hlen.
  rewrite cap_buffer_short by lia.
  rewrite endsWith_shorter by exact Hlen. cbn; split; [reflexivity | lia].
Qed.

(** X2. Typing at a human pace never dispatches through the key-down
    handler: in a stream where every key-down comes more than
    [SCAN_TIMEOUT] after the one before it (and the first one that long after
    the recorded key time), and every key is shorter than the pattern
    (characters, Enter, Escape, the modifiers), no token is emitted, not even
    on Enter. *)
Theorem slow_typing_emits_nothing (r : Refs) (evs : list Timed) :
  gaps_beyond (lastKeyTime r) evs ->
  Forall (fun te => (length (key (snd te)) < length SKU_PATTERN)%nat) evs ->
  tokens (snd (run r evs)) = [].
Proof.
  revert r; induction evs as [|[now e] evs IH]; intros r Hgaps Hkeys;
    [reflexivity|].
  destruct Hgaps as [Hgap Hgaps]. inversion Hkeys as [|? ? Hk Hks]; subst.
  cbn [run].
  destruct (handleKeyDown_after_pause now e r Hgap Hk) as [Ht Hl].
  destruct (handleKeyDown now e r) as [r1 out1]. cbn [fst snd] in Ht, Hl.
  assert (Hgaps1 : gaps_beyond (lastKeyTime r1) evs).
  { destruct evs as [|[now' e'] evs']; [exact I|].
    destruct Hgaps as [Hg Hrest]. split; [lia | exact Hrest]. }
  specialize (IH r1 Hgaps1 Hks).
  destruct (run r1 evs) as [r2 out2]. cbn [snd] in *.
  clear - Ht IH. induction out1 as [|[on| |t] out1 IHo]; cbn in *;
    try discriminate; auto.
Qed.

Lemma slow_typing_emits_nothing_witness :
  (gaps_beyond (lastKeyTime initialRefs)
     (typed 1000 200 SKU_PATTERN
        ++ [(5000, {| key := "Enter"; ctrlKey := false |})]) /\
   Forall (fun te => (length (key (snd te)) < length SKU_PATTERN)%nat)
     (typed 1000 200 SKU_PATTERN
        ++ [(5000, {| key := "Enter"; ctrlKey := false |})])) /\
  tokens (snd (run initialRefs
                 (typed 1000 200 SKU_PATTERN
                    ++ [(5000, {| key := "Enter"; ctrlKey := false |})]))) = [].
Proof.
  assert (G : gaps_beyond (lastKeyTime initialRefs)
                (typed 1000 200 SKU_PATTERN
                   ++ [(5000, {| key := "Enter"; ctrlKey := false |})]))
    by (unfold SKU_PATTERN; cbn; unfold SCAN_TIMEOUT; repeat split; lia).
  assert (K : Forall (fun te => (length (key (snd te)) < length SKU_PATTERN)%nat)
                (typed 1000 200 SKU_PATTERN
                   ++ [(5000, {| key := "Enter"; ctrlKey := false |})]))
    by (unfold SKU_PATTERN; cbn; repeat constructor; cbn; lia).
  split; [split; assumption |].
  apply (slow_typing_emits_nothing initialRefs _ G K).
Defined.

(** *** Occurrences of the pattern in the buffer *)

Lemma occurs_in_empty (p : string) : p <> "" -> ~ occurs_in p "".
Proof.
  intros Hp (x & y & H). destruct x; [|discriminate H].
  destruct p; [congruence | discriminate H].
Qed.

Lemma occurs_in_tail (p x s : string) : occurs_in p s -> occurs_in p (x ++ s).
Proof.
  intros (u & v & ->). exists (x ++ u), v. now rewrite append_assoc.
Qed.

Lemma prefix_split (p s : string) :
  prefix p s = true -> exists y, s = p ++ y.
Proof.
  revert s; induction p as [|c p IH]; intros [|d s] H; simpl in H;
    try discriminate; try (eexists; reflexivity).
  destruct (ascii_dec c d) as [->|]; [|discriminate].
  destruct (IH s H) as (y & ->). now exists y.
Qed.

Lemma prefix_occurs (p s : string) : prefix p s = true -> occurs_in p s.
Proof. intros H. destruct (prefix_split p s H) as (y & ->). now exists "", y. Qed.

(** Where the pattern does not occur, the global match finds nothing. *)
Lemma match_all_from_none (p s : string) (skip : nat) :
  ~ occurs_in p s -> match_all_from p s skip = [].
Proof.
  revert skip; induction s as [|c s IH]; intros skip H; [now destruct skip|].
  assert (Hs : ~ occurs_in p s).
  { intros Ho. apply H. apply (occurs_in_tail p (String c "") s Ho). }
  cbn [match_all_from]. destruct skip as [|k]; [|now apply IH].
  destruct (prefix p (String c s)) eqn:E; [|now apply IH].
  exfalso. apply H. now apply prefix_occurs.
Qed.

Lemma string_snoc (y : string) :
  y <> "" -> exists y' d, y = y' ++ String d "".
Proof.
  induction y as [|c y IH]; [congruence|]. intros _.
  destruct y as [|c' y].
  - now exists "", c.
  - destruct IH as (y' & d & E); [discriminate|].
    exists (String c y'), d. simpl. now rewrite E.
Qed.

Lemma append_snoc_inj (u s : string) (d c : ascii) :
  u ++ String d "" = s ++ String c "" -> u = s /\ d = c.
Proof.
  revert s; induction u as [|a u IH]; intros [|b s] H; simpl in H.
  - injection H as ->. now split.
  - injection H as _ H. destruct s; discriminate H.
  - injection H as _ H. destruct u; discriminate H.
  - injection H as -> H. destruct (IH s H) as [-> ->]. now split.
Qed.

(** An occurrence in a buffer to which one character was appended is
    either at its very end or was there before. *)
Lemma occurs_in_snoc (p b : string) (c : ascii) :
  occurs_in p (b ++ String c "") ->
  occurs_in p b \/ endsWith (b ++ String c "") p = true.
Proof.
  intros (x & y & H). destruct y as [|a y].
  - right. rewrite H, append_empty_r. apply endsWith_append.
  - left. destruct (string_snoc (String a y)) as (y' & d & E); [discriminate|].
    rewrite E, <- !append_assoc in H.
    apply append_snoc_inj in H as [-> _].
    exists x, y'. now rewrite append_assoc.
Qed.

Lemma endsWith_cap_buffer (b : string) :
  endsWith b SKU_PATTERN = true -> endsWith (cap_buffer b) SKU_PATTERN = true.
Proof.
  intros H. apply endsWith_split in H as (x & -> & _).
  destruct (cap_buffer_keeps_tail x SKU_PATTERN) as (x' & ->);
    [simpl; lia | apply endsWith_append].
Qed.

(** One key-down of a plain key on a buffer without occurrence of the
    pattern: at most one token, and still no occurrence afterwards. *)
Lemma handleKeyDown_plain (now : Z) (e : KeyboardEvent) (r : Refs) :
  is_plain_key (key e) = true ->
  ~ occurs_in SKU_PATTERN (buffer r) ->
  (List.length (tokens (snd (handleKeyDown now e r))) <= 1)%nat /\
  ~ occurs_in SKU_PATTERN (buffer (fst (handleKeyDown now e r))).
Proof.
  intros Hplain Hno.
  assert (Hempty : ~ occurs_in SKU_PATTERN "")
    by (apply occurs_in_empty; discriminate).
  unfold handleKeyDown.
  destruct (key e =? "Escape")%string eqn:Eesc; [cbn; split; [lia | exact Hno]|].
  destruct (ctrlKey e && (key e =? "d")%string); [cbn; split; [lia | exact Hno]|].
  destruct (key e =? "Shift")%string eqn:Eshift; [cbn; split; [lia | exact Hno]|].
  cbv zeta. cbn [negb]. rewrite andb_true_r.
  set (b0 := if now - lastKeyTime r >? SCAN_TIMEOUT then "" else buffer r).
  assert (Hb0 : ~ occurs_in SKU_PATTERN b0)
    by (subst b0; destruct (now - lastKeyTime r >? SCAN_TIMEOUT); assumption).
  assert (Hbuf : forall t, buffer (if negb (is_modifier (key e))
                            then set_lastKeyTime t
                                   (if now - lastKeyTime r >? SCAN_TIMEOUT
                                    then set_buffer "" r else r)
                            else if now - lastKeyTime r >? SCAN_TIMEOUT
                                 then set_buffer "" r else r) = b0).
  { intros t. subst b0.
    destruct (negb (is_modifier (key e)));
      destruct (now - lastKeyTime r >? SCAN_TIMEOUT); reflexivity. }
  destruct (key e =? "Enter")%string eqn:Eenter.
  - unfold processBuffer. rewrite Hbuf.
    destruct (truthy b0) eqn:Et.
    + unfold match_all. rewrite match_all_from_none by exact Hb0.
      unfold processSku. rewrite Et. cbn. split; [lia | exact Hempty].
    + cbn [fst snd tokens List.length]. rewrite Hbuf. split; [lia | exact Hb0].
  - destruct (is_modifier (key e)) eqn:Emod; cbn [negb].
    + cbn [fst snd tokens List.length].
      specialize (Hbuf now). cbn [negb] in Hbuf.
      rewrite Hbuf. split; [lia | exact Hb0].
    + specialize (Hbuf now). cbn [negb] in Hbuf.
      rewrite Hbuf.
      assert (Hone : exists c, key e = String c "").
      { unfold is_plain_key in Hplain.
        rewrite Eenter, Eesc, Emod, !orb_false_r in Hplain.
        apply Nat.eqb_eq in Hplain.
        destruct (key e) as [|c [|c' k]]; try discriminate Hplain.
        now exists c. }
      destruct Hone as (c & ->).
      destruct (endsWith (cap_buffer (b0 ++ String c "")) SKU_PATTERN) eqn:M.
      * cbn [fst snd set_buffer buffer].
        rewrite remainder_after_match by (auto; discriminate).
        cbn. split; [lia | exact Hempty].
      * cbn [fst snd set_buffer buffer tokens List.length].
        split; [lia|]. intros Ho.
        destruct (cap_buffer_tail (b0 ++ String c "")) as (x & Hx).
        assert (Ho' : occurs_in SKU_PATTERN (b0 ++ String c "")).
        { rewrite Hx. now apply occurs_in_tail. }
        apply occurs_in_snoc in Ho' as [Ho' | Ho']; [now apply Hb0|].
        apply endsWith_cap_buffer in Ho'. congruence.
Qed.

Lemma run_plain_invariant (r : Refs) (evs : list Timed) :
  Forall (fun te => is_plain_key (key (snd te)) = true) evs ->
  ~ occurs_in SKU_PATTERN (buffer r) ->
  ~ occurs_in SKU_PATTERN (buffer (fst (run r evs))).
Proof.
  revert r; induction evs as [|[now e] evs IH]; intros r Hall Hno; [exact Hno|].
  inversion Hall as [|? ? Hk Hks]; subst. cbn [run].
  destruct (handleKeyDown_plain now e r Hk Hno) as [_ H1].
  destruct (handleKeyDown now e r) as [r1 out1]. cbn [fst] in H1.
  specialize (IH r1 Hks H1). now destruct (run r1 evs).
Qed.

(** X3. From the initial refs, over any stream of plain keys (single
    characters, Enter, Escape, the modifiers) with any timing, the buffer
    never holds an occurrence of the pattern between two events, and every
    key-down, Enter included, dispatches at most one token. *)
Theorem one_token_per_key_at_most
    (evs : list Timed) (now : Z) (e : KeyboardEvent) :
  Forall (fun te => is_plain_key (key (snd te)) = true) evs ->
  is_plain_key (key e) = true ->
  ~ occurs_in SKU_PATTERN (buffer (fst (run initialRefs evs))) /\
  (List.length (tokens (snd (handleKeyDown now e (fst (run initialRefs evs)))))
   <= 1)%nat.
Proof.
  intros Hall Hk.
  assert (H : ~ occurs_in SKU_PATTERN (buffer (fst (run initialRefs evs)))).
  { apply run_plain_invariant; [exact Hall|].
    apply occurs_in_empty. discriminate. }
  split; [exact H|]. now apply handleKeyDown_plain.
Qed.

Lemma one_token_per_key_at_most_witness :
  (Forall (fun te => is_plain_key (key (snd te)) = true)
     (typed 1000 5 (SKU_PATTERN ++ "RIMO12")) /\
   is_plain_key "Enter" = true) /\
  (List.length
     (tokens (snd (handleKeyDown 1090 {| key := "Enter"; ctrlKey := false |}
                     (fst (run initialRefs
                             (typed 1000 5 (SKU_PATTERN ++ "RIMO12")))))))
   <= 1)%nat.
Proof.
  assert (A : Forall (fun te => is_plain_key (key (snd te)) = true)
                (typed 1000 5 (SKU_PATTERN ++ "RIMO12")))
    by (unfold SKU_PATTERN; cbn; repeat constructor).
  split; [split; [exact A | reflexivity] |].
  apply (proj2 (one_token_per_key_at_most _ 1090
                  {| key := "Enter"; ctrlKey := false |} A eq_refl)).
Defined.

(** After an occurrence at the head, the global match goes on behind it. *)
Lemma match_all_from_skip (p u t : string) :
  match_all_from p (u ++ t) (length u) = match_all_from p t 0.
Proof. induction u as [|c u IH]; simpl; [reflexivity | exact IH]. Qed.

Lemma match_all_head (p t : string) :
  p <> "" -> match_all (p ++ t) p = p :: match_all t p.
Proof.
  intros Hp. destruct p as [|c p]; [congruence|].
  unfold match_all. cbn [append match_all_from].
  change (String c (p ++ t)) with (String c p ++ t).
  rewrite prefix_append. cbn [length Nat.sub]. rewrite Nat.sub_0_r.
  now rewrite match_all_from_skip.
Qed.

Lemma match_all_copies (n : nat) (p : string) :
  p <> "" -> match_all (copies n p) p = repeat p n.
Proof.
  intros Hp; induction n as [|n IH]; [reflexivity|].
  cbn [copies repeat]. now rewrite match_all_head, IH.
Qed.

Lemma copies_nonempty (n : nat) (p : string) :
  p <> "" -> truthy (copies (S n) p) = true.
Proof.
  intros Hp. destruct p as [|c p]; [congruence | reflexivity].
Qed.

(** X4. Enter flushes and always leaves the buffer empty.  After the
    timeout nothing is dispatched; within it, a buffer without occurrence of
    the pattern is dispatched whole, as one token (none when it is empty),
    and a buffer made of [n] copies of the pattern is dispatched as [n]
    tokens. *)
Theorem enter_flushes_buffer (now : Z) (e : KeyboardEvent) (r : Refs) :
  key e = "Enter" ->
  buffer (fst (handleKeyDown now e r)) = "" /\
  (now - lastKeyTime r > SCAN_TIMEOUT -> snd (handleKeyDown now e r) = []) /\
  (now - lastKeyTime r <= SCAN_TIMEOUT ->
   (~ occurs_in SKU_PATTERN (buffer r) ->
    snd (handleKeyDown now e r) = processSku (buffer r)) /\
   (forall n, buffer r = copies (S n) SKU_PATTERN ->
      snd (handleKeyDown now e r) = repeat (Token SKU_PATTERN) (S n))).
Proof.
  intros K. unfold handleKeyDown. rewrite K. cbn [String.eqb Ascii.eqb Bool.eqb].
  rewrite andb_false_r. cbn [is_modifier String.eqb Ascii.eqb Bool.eqb orb negb andb].
  rewrite andb_true_r. unfold processBuffer.
  split; [|split].
  - destruct (now - lastKeyTime r >? SCAN_TIMEOUT);
      cbn [set_lastKeyTime set_buffer buffer];
      match goal with |- context [truthy ?b] => destruct (truthy b) eqn:E end;
      cbn [fst set_buffer buffer]; try reflexivity.
    unfold truthy in E. apply negb_false_iff, String.eqb_eq in E. exact E.
  - intros Hgap.
    replace (now - lastKeyTime r >? SCAN_TIMEOUT) with true
      by (symmetry; rewrite Z.gtb_ltb; apply Z.ltb_lt; lia).
    reflexivity.
  - intros Hgap.
    replace (now - lastKeyTime r >? SCAN_TIMEOUT) with false
      by (symmetry; rewrite Z.gtb_ltb; apply Z.ltb_ge; lia).
    cbn [set_lastKeyTime buffer]. split.
    + intros Hno. unfold match_all. rewrite match_all_from_none by exact Hno.
      unfold processSku. destruct (truthy (buffer r)); reflexivity.
    + intros n Hb. rewrite Hb, copies_nonempty by discriminate.
      rewrite match_all_copies by discriminate. cbn [snd].
      generalize (S n) as m. clear. intros m.
      induction m as [|m IH]; [reflexivity|].
      cbn [repeat flat_map]. destruct m; cbn in *; [reflexivity|].
      now rewrite IH.
Qed.

Lemma enter_flushes_buffer_witness :
  "Enter" = "Enter" /\
  snd (handleKeyDown 1010 {| key := "Enter"; ctrlKey := false |}
         {| lastKeyTime := 1000; buffer := "ABC-123"; isShiftPressed := false |})
  = [Token "ABC-123"].
Proof.
  split; [reflexivity |].
  assert (H := enter_flushes_buffer 1010 {| key := "Enter"; ctrlKey := false |}
                 {| lastKeyTime := 1000; buffer := "ABC-123";
                    isShiftPressed := false |} eq_refl).
  destruct H as (_ & _ & H).
  assert (G : 1010 - 1000 <= SCAN_TIMEOUT) by (unfold SCAN_TIMEOUT; lia).
  destruct (H G) as [H1 _]. apply H1.
  intros (x & y & E). cbn [buffer] in E.
  assert (L : length "ABC-123" = length (x ++ SKU_PATTERN ++ y)) by now rewrite E.
  rewrite !length_append in L. simpl in L. lia.
Defined.

(** The refs up to the Shift flag. *)
Lemma handleKeyDown_shift_blind (now : Z) (e : KeyboardEvent) (r : Refs) (b : bool) :
  snd (handleKeyDown now e (set_shift b r)) = snd (handleKeyDown now e r) /\
  buffer (fst (handleKeyDown now e (set_shift b r)))
  = buffer (fst (handleKeyDown now e r)) /\
  lastKeyTime (fst (handleKeyDown now e (set_shift b r)))
  = lastKeyTime (fst (handleKeyDown now e r)).
Proof.
  unfold handleKeyDown.
  destruct (key e =? "Escape")%string; [now repeat split|].
  destruct (ctrlKey e && (key e =? "d")%string); [now repeat split|].
  destruct (key e =? "Shift")%string; [now repeat split|].
  cbn [set_shift lastKeyTime buffer negb]. rewrite andb_true_r.
  unfold processBuffer.
  destruct (now - lastKeyTime r >? SCAN_TIMEOUT);
    destruct (is_modifier (key e)); cbn [negb];
    destruct (key e =? "Enter")%string;
    cbn [set_buffer set_lastKeyTime set_shift buffer lastKeyTime];
    repeat match goal with
           | |- context [truthy ?x] => destruct (truthy x)
           | |- context [endsWith ?x SKU_PATTERN] => destruct (endsWith x SKU_PATTERN)
           end;
    now repeat split.
Qed.

Lemma refs_eta (r : Refs) :
  r = set_shift (isShiftPressed r)
        {| lastKeyTime := lastKeyTime r; buffer := buffer r;
           isShiftPressed := false |}.
Proof. now destruct r. Qed.

(** Two runs from refs that agree on the buffer and the recorded time. *)
Lemma run_up_to_shift (evs : list Timed) :
  forall r r',
    buffer r' = buffer r -> lastKeyTime r' = lastKeyTime r ->
    snd (run r' evs) = snd (run r evs) /\
    buffer (fst (run r' evs)) = buffer (fst (run r evs)) /\
    lastKeyTime (fst (run r' evs)) = lastKeyTime (fst (run r evs)).
Proof.
  induction evs as [|[now e] evs IH]; intros r r' Hb Ht; [now repeat split|].
  cbn [run].
  assert (E : snd (handleKeyDown now e r') = snd (handleKeyDown now e r) /\
              buffer (fst (handleKeyDown now e r'))
              = buffer (fst (handleKeyDown now e r)) /\
              lastKeyTime (fst (handleKeyDown now e r'))
              = lastKeyTime (fst (handleKeyDown now e r))).
  { rewrite (refs_eta r'), (refs_eta r), Hb, Ht.
    destruct (handleKeyDown_shift_blind now e
                {| lastKeyTime := lastKeyTime r; buffer := buffer r;
                   isShiftPressed := false |} (isShiftPressed r'))
      as (A1 & A2 & A3).
    destruct (handleKeyDown_shift_blind now e
                {| lastKeyTime := lastKeyTime r; buffer := buffer r;
                   isShiftPressed := false |} (isShiftPressed r))
      as (B1 & B2 & B3).
    repeat split; congruence. }
  destruct E as (E1 & E2 & E3).
  destruct (handleKeyDown now e r') as [r1' o1'].
  destruct (handleKeyDown now e r) as [r1 o1]. cbn [fst snd] in *.
  destruct (IH r1 r1' E2 E3) as (I1 & I2 & I3).
  destruct (run r1' evs) as [r2' o2']. destruct (run r1 evs) as [r2 o2].
  cbn [fst snd] in *. repeat split; congruence.
Qed.

(** X5. The Shift flag is written but never read: two runs over the same
    stream from refs that differ only in [isShiftPressed] emit the same
    effects and leave the same buffer and the same recorded key time; and
    [handleKeyUp] touches neither the buffer nor the recorded time. *)
Theorem shift_flag_never_read (r : Refs) (b : bool) (evs : list Timed) :
  snd (run (set_shift b r) evs) = snd (run r evs) /\
  buffer (fst (run (set_shift b r) evs)) = buffer (fst (run r evs)) /\
  lastKeyTime (fst (run (set_shift b r) evs)) = lastKeyTime (fst (run r evs)) /\
  (forall e, buffer (handleKeyUp e r) = buffer r /\
             lastKeyTime (handleKeyUp e r) = lastKeyTime r).
Proof.
  destruct (run_up_to_shift evs r (set_shift b r) eq_refl eq_refl) as (G1 & G2 & G3).
  repeat split; try assumption;
    unfold handleKeyUp; destruct (key e =? "Shift")%string; reflexivity.
Qed.

(** X15. Shift key-downs are transparent.  Removing from a stream the
    key-downs of Shift (those a keyboard-emulating scanner sends before
    upper-case letters) changes neither the effects emitted, nor the buffer,
    nor the recorded key time: only the Shift flag can differ. *)
Theorem shift_keys_are_transparent (r : Refs) (evs : list Timed) :
  snd (run r evs)
  = snd (run r (filter (fun te => negb (key (snd te) =? "Shift")%string) evs)) /\
  buffer (fst (run r evs))
  = buffer (fst (run r (filter (fun te => negb (key (snd te) =? "Shift")%string)
                          evs))) /\
  lastKeyTime (fst (run r evs))
  = lastKeyTime (fst (run r (filter (fun te => negb (key (snd te) =? "Shift")%string)
                               evs))).
Proof.
  revert r; induction evs as [|[now e] evs IH]; intros r; [now repeat split|].
  cbn [filter snd]. destruct (key e =? "Shift")%string eqn:K; cbn [negb].
  - cbn [run]. apply String.eqb_eq in K.
    rewrite (proj1 (handleKeyDown_modifier now e r) K).
    destruct (IH r) as (I1 & I2 & I3).
    destruct (run_up_to_shift evs r (set_shift true r) eq_refl eq_refl)
      as (G1 & G2 & G3).
    destruct (run (set_shift true r) evs) as [r2 o2]. cbn [fst snd app] in *.
    repeat split; congruence.
  - cbn [run]. destruct (handleKeyDown now e r) as [r1 o1].
    destruct (IH r1) as (I1 & I2 & I3).
    destruct (run r1 evs) as [r2 o2].
    match goal with
    | |- context [run r1 (filter ?f evs)] =>
        destruct (run r1 (filter f evs)) as [r3 o3]
    end.
    cbn [fst snd] in *. repeat split; congruence.
Qed.

(** X16. A scanner that ends its burst with Enter dispatches once.  A
    burst that types the pattern and then sends Enter makes the handler emit
    exactly one token, whatever the refs held before: the token is emitted
    at the last character and Enter finds the buffer empty. *)
Theorem scan_with_enter_suffix (r : Refs) (evs : list Timed) :
  keys evs = (keys_of SKU_PATTERN ++ ["Enter"])%list ->
  burst evs ->
  snd (run r evs) = [Token SKU_PATTERN] /\ buffer (fst (run r evs)) = "".
Proof.
  intros Hkeys Hburst.
  set (n := length SKU_PATTERN).
  assert (Hsplit : evs = (firstn n evs ++ skipn n evs)%list)
    by (symmetry; apply firstn_skipn).
  assert (H1 : keys (firstn n evs) = keys_of SKU_PATTERN).
  { unfold keys, Timed in *. rewrite <- firstn_map, Hkeys. reflexivity. }
  assert (H2 : keys (skipn n evs) = ["Enter"]).
  { unfold keys, Timed in *. rewrite <- skipn_map, Hkeys. reflexivity. }
  rewrite Hsplit in Hburst. apply burst_app in Hburst as [B1 _].
  destruct (scan_token r _ H1 B1) as (r1 & R1 & E1).
  destruct (skipn n evs) as [|[now e] [|x rest]] eqn:S; try discriminate H2.
  injection H2 as K.
  rewrite Hsplit, run_app, R1. cbn [fst snd run].
  unfold handleKeyDown. rewrite K.
  cbn [String.eqb Ascii.eqb Bool.eqb andb is_modifier orb negb].
  rewrite andb_false_r, andb_true_r. unfold processBuffer.
  destruct (now - lastKeyTime r1 >? SCAN_TIMEOUT);
    cbn [set_lastKeyTime set_buffer buffer]; rewrite ?E1; cbn; now split.
Qed.

Lemma scan_with_enter_suffix_witness :
  (keys (typed 1000 5 SKU_PATTERN ++ [(1060, {| key := "Enter"; ctrlKey := false |})])
   = (keys_of SKU_PATTERN ++ ["Enter"])%list /\
   burst (typed 1000 5 SKU_PATTERN
            ++ [(1060, {| key := "Enter"; ctrlKey := false |})])) /\
  snd (run initialRefs
         (typed 1000 5 SKU_PATTERN
            ++ [(1060, {| key := "Enter"; ctrlKey := false |})]))
  = [Token SKU_PATTERN].
Proof.
  assert (K : keys (typed 1000 5 SKU_PATTERN
                      ++ [(1060, {| key := "Enter"; ctrlKey := false |})])
              = (keys_of SKU_PATTERN ++ ["Enter"])%list) by reflexivity.
  assert (B : burst (typed 1000 5 SKU_PATTERN
                       ++ [(1060, {| key := "Enter"; ctrlKey := false |})]))
    by (unfold SKU_PATTERN; cbn; unfold SCAN_TIMEOUT; repeat split; lia).
  split; [split; assumption |].
  apply (proj1 (scan_with_enter_suffix initialRefs _ K B)).
Defined.

End ScannerMore.

(** ** Further properties of the bulk-scan ledger *)

Section LedgerMore.
Import JsString Scanner.

Lemma quantity_in_absent (k : string) (items : list BulkItem) :
  quantity_in k items = None -> ~ In k (map sku items).
Proof.
  unfold quantity_in; induction items as [|x items IH]; simpl; [tauto|].
  unfold sku_is at 1. destruct (String.eqb_spec (sku x) k) as [E|E]; simpl;
    [discriminate|].
  intros H [H1|H1]; [congruence | now apply IH].
Qed.

Lemma dispatch_step_empty (items : list BulkItem) (d : Dispatch) :
  truthy (dispatched d) = false -> dispatch_step items d = items.
Proof.
  destruct d as [s|s]; simpl; intros H;
    unfold scan_step, manual_step, processSku_bulk, handleManualSubmit_bulk;
    now rewrite H.
Qed.

Lemma truthy_true (s : string) : truthy s = true -> s <> "".
Proof. unfold truthy. intros H ->. discriminate H. Qed.

(** What the ledger shows after one dispatch of a non-empty token. *)
Lemma dispatch_step_counts (items : list BulkItem) (d : Dispatch) (k : string) :
  truthy (dispatched d) = true ->
  quantity_in k (dispatch_step items d) =
  if string_dec (dispatched d) k
  then Some (match quantity_in k items with Some q => q + 1 | None => 1 end)
  else quantity_in k items.
Proof.
  intros Ht. apply truthy_true in Ht.
  assert (E : dispatch_step items d =
              match quantity_in (dispatched d) items with
              | Some _ => match d with
                          | Scanned s => increment_found s items
                          | Typed s => increment_all s items
                          end
              | None => add_new (dispatched d) items
              end).
  { destruct d as [s|s]; cbn [dispatch_step dispatched] in *;
      [rewrite scan_step_cases | rewrite manual_step_cases]; try assumption;
      now destruct (quantity_in s items). }
  rewrite E. destruct (string_dec (dispatched d) k) as [<-|Hne].
  - destruct (quantity_in (dispatched d) items) as [q|] eqn:Q.
    + destruct d as [s|s]; cbn [dispatched] in *;
        [now apply increment_found_quantity | now apply increment_all_quantity].
    + now apply quantity_in_fresh.
  - destruct (quantity_in (dispatched d) items) as [q|] eqn:Q.
    + destruct d as [s|s]; cbn [dispatched] in *;
        [apply increment_found_frame | apply increment_all_frame]; congruence.
    + rewrite quantity_in_add_new.
      destruct (quantity_in k items); [reflexivity|].
      destruct (String.eqb_spec (dispatched d) k); [contradiction | reflexivity].
Qed.

Lemma dispatch_step_NoDup (items : list BulkItem) (d : Dispatch) :
  NoDup (map sku items) -> NoDup (map sku (dispatch_step items d)).
Proof.
  intros Hnd. destruct (truthy (dispatched d)) eqn:Ht;
    [|now rewrite dispatch_step_empty].
  apply truthy_true in Ht.
  destruct d as [s|s]; cbn [dispatch_step dispatched] in *;
    [rewrite scan_step_cases | rewrite manual_step_cases]; try assumption;
    destruct (quantity_in s items) eqn:Q;
    rewrite ?increment_found_skus, ?increment_all_skus; try assumption;
    unfold add_new; rewrite map_app; cbn [map sku];
    apply NoDup_app; repeat split; try assumption;
    try (constructor; [intros [] | constructor]);
    intros x Hx [<-|[]]; now apply (quantity_in_absent _ _ Q).
Qed.

(** X6. The ledger counts dispatches.  After any session of bulk-mode
    dispatches (scanned or submitted by hand, in any order) on a settled
    component starting from the empty ledger, no sku has two entries, and
    the ledger shows for each sku the number of dispatches that carried it:
    no entry when there was none. *)
Theorem ledger_counts_dispatches (ds : list Dispatch) (k : string) :
  NoDup (map sku (dispatch_all [] ds)) /\
  quantity_in k (dispatch_all [] ds) =
  (if (times_dispatched k ds =? 0)%nat then None
   else Some (Z.of_nat (times_dispatched k ds))).
Proof.
  unfold dispatch_all, times_dispatched.
  induction ds as [|d ds IH] using rev_ind; [split; [constructor | reflexivity]|].
  destruct IH as [Hnd Hq]. rewrite fold_left_app. cbn [fold_left].
  split; [now apply dispatch_step_NoDup|].
  rewrite map_app, filter_app, count_occ_app. cbn [map filter].
  destruct (truthy (dispatched d)) eqn:Ht.
  - rewrite dispatch_step_counts by exact Ht. rewrite Hq.
    cbn [count_occ].
    destruct (string_dec (dispatched d) k) as [E|E].
    + destruct (count_occ string_dec (filter truthy (map dispatched ds)) k) as [|n];
        cbn [Nat.eqb Nat.add].
      * reflexivity.
      * replace (S n + 1 =? 0)%nat with false by (symmetry; apply Nat.eqb_neq; lia).
        f_equal. lia.
    + now rewrite Nat.add_0_r.
  - rewrite dispatch_step_empty by exact Ht. rewrite Hq.
    cbn [count_occ]. now rewrite Nat.add_0_r.
Qed.

(** X7. Deleting a row.  On a ledger with distinct skus, deleting the
    row at an index inside the ledger removes that row's sku from the ledger
    and leaves what the ledger shows for every other sku; an index outside
    the ledger deletes nothing. *)
Theorem delete_row_removes_its_sku
    (items : list BulkItem) (index : nat) (row : BulkItem) :
  NoDup (map sku items) ->
  nth_error items index = Some row ->
  quantity_in (sku row) (delete_at index items) = None /\
  (forall k, k <> sku row ->
     quantity_in k (delete_at index items) = quantity_in k items) /\
  S (List.length (delete_at index items)) = List.length items /\
  (forall far, (List.length items <= far)%nat -> delete_at far items = items).
Proof.
  intros Hnd Hrow. repeat split.
  - revert index Hnd Hrow; induction items as [|x items IH]; intros index Hnd Hrow;
      [destruct index; discriminate|].
    inversion Hnd as [|? ? Hnotin Hnd']; subst.
    destruct index as [|i]; cbn in Hrow |- *.
    + injection Hrow as <-. unfold quantity_in.
      destruct (find (sku_is (sku x)) items) as [y|] eqn:F; [|reflexivity].
      apply find_some in F as [Hin Hs]. unfold sku_is in Hs.
      apply String.eqb_eq in Hs. exfalso. apply Hnotin.
      rewrite <- Hs. now apply in_map.
    + unfold quantity_in. cbn [find]. unfold sku_is at 1.
      destruct (String.eqb_spec (sku x) (sku row)) as [E|E].
      * exfalso. apply Hnotin. rewrite E.
        apply in_map. now apply nth_error_In with i.
      * now apply IH.
  - intros k Hk. revert index Hrow; clear Hnd.
    induction items as [|x items IH]; intros index Hrow;
      [destruct index; discriminate|].
    destruct index as [|i]; cbn in Hrow |- *.
    + injection Hrow as <-. unfold quantity_in. cbn [find]. unfold sku_is at 2.
      destruct (String.eqb_spec (sku x) k); [congruence | reflexivity].
    + unfold quantity_in in *. cbn [find].
      destruct (sku_is k x); [reflexivity | now apply IH].
  - revert index Hrow; clear Hnd.
    induction items as [|x items IH]; intros index Hrow;
      [destruct index; discriminate|].
    destruct index as [|i]; cbn in Hrow |- *; [reflexivity|].
    now rewrite (IH i Hrow).
  - clear. induction items as [|x items IH]; intros far Hfar; [now destruct far|].
    destruct far as [|f]; cbn in Hfar |- *; [lia|].
    now rewrite IH by lia.
Qed.

Lemma delete_row_removes_its_sku_witness :
  (NoDup (map sku [mkItem "A" 2; mkItem "B" 1; mkItem "C" 5]) /\
   nth_error [mkItem "A" 2; mkItem "B" 1; mkItem "C" 5] 1 = Some (mkItem "B" 1)) /\
  quantity_in "B" (delete_at 1 [mkItem "A" 2; mkItem "B" 1; mkItem "C" 5]) = None.
Proof.
  assert (N : NoDup (map sku [mkItem "A" 2; mkItem "B" 1; mkItem "C" 5])).
  { cbn. repeat (constructor; [cbn; intuition discriminate |]). constructor. }
  split; [split; [exact N | reflexivity] |].
  apply (proj1 (delete_row_removes_its_sku _ 1 (mkItem "B" 1) N eq_refl)).
Defined.

End LedgerMore.

(** ** Further properties of markup resolution *)

Section MarkupMore.
Import Markup.

Lemma matches_scope (t : SettingType) (n : string) (rule : MarkupSetting) :
  matches t n rule = true -> type rule = t /\ name rule = n.
Proof.
  unfold matches; intros H; apply andb_true_iff in H as [Ht Hn].
  apply String.eqb_eq in Hn. split; [|exact Hn].
  destruct (type rule), t; simpl in Ht; congruence.
Qed.

(** X8. Whatever the table of settings, the resolved markup is never
    zero, and it is either the default fraction or the fraction of a rule of
    the table that matches the manufacturer (by manufacturer scope) or the
    category (by category scope). *)
Theorem resolved_markup_never_zero
    (settings : list MarkupSetting) (m c : string) :
  truthy (getMarkupFrom settings m c) = true /\
  (getMarkupFrom settings m c = default_markup \/
   exists rule,
     In rule settings /\ markup rule = getMarkupFrom settings m c /\
     ((type rule = manufacturer /\ name rule = m) \/
      (type rule = category /\ name rule = c))).
Proof.
  unfold getMarkupFrom, js_or, js_or_number.
  destruct (find (matches manufacturer m) settings) as [rm|] eqn:Em;
    cbn [option_map].
  - apply find_some in Em as [Hin Hm]. apply matches_scope in Hm.
    destruct (truthy (markup rm)) eqn:Tm.
    + rewrite Tm. split; [exact Tm|]. right. exists rm. tauto.
    + destruct (find (matches category c) settings) as [rc|] eqn:Ec;
        cbn [option_map]; [|split; [reflexivity | now left]].
      apply find_some in Ec as [Hinc Hc]. apply matches_scope in Hc.
      destruct (truthy (markup rc)) eqn:Tc;
        [split; [exact Tc|]; right; exists rc; tauto
        | split; [reflexivity | now left]].
  - destruct (find (matches category c) settings) as [rc|] eqn:Ec;
      cbn [option_map]; [|split; [reflexivity | now left]].
    apply find_some in Ec as [Hinc Hc]. apply matches_scope in Hc.
    destruct (truthy (markup rc)) eqn:Tc;
      [split; [exact Tc|]; right; exists rc; tauto
      | split; [reflexivity | now left]].
Qed.

(** X9. On the table the module ships, [getMarkupForProduct] resolves by
    scope for every manufacturer and category (manufacturer rule first, then
    category rule, then the default), and the result always lies between 0.2
    and 0.4. *)
Theorem shipped_markup_by_scope (m c : string) :
  getMarkupForProduct m c = resolve_by_scope defaultMarkupSettings m c /\
  (2 # 10 <= getMarkupForProduct m c)%Q /\
  (getMarkupForProduct m c <= 4 # 10)%Q.
Proof.
  assert (E : getMarkupForProduct m c = resolve_by_scope defaultMarkupSettings m c)
    by (apply getMarkupFrom_nonzero; reflexivity).
  split; [exact E|]. rewrite E.
  unfold resolve_by_scope, defaultMarkupSettings, matches.
  cbn [find type name markup SettingType_eqb andb].
  repeat match goal with
         | |- context [(?a =? ?b)%string] => destruct (a =? b)%string
         end;
    cbn [markup default_markup]; split; unfold Qle; simpl; lia.
Qed.

End MarkupMore.

(** ** Further properties of the product form *)

Section FormMore.
Import ProductForm Inventory.


















Variable World : Type.
Variable generateBarcodes : World -> BarcodeArgs -> Outcome.


End FormMore.

Section FormMoreExamples.
Import ProductForm Inventory.


End FormMoreExamples.

(** ** The width of a bar pattern *)

Section WidthFacts.
Import ProductForm.

Lemma calculateBarcodeWidth_from (pattern : list nat) (m start : Z) :
  fold_left (fun sum width => sum + Z.of_nat width * m) pattern start
  = start + Z.of_nat (list_sum pattern) * m.
Proof.
  revert start; induction pattern as [|w pattern IH]; intros start; simpl.
  - lia.
  - rewrite IH, Nat2Z.inj_add. lia.
Qed.

Lemma char_pattern_sum (c : ascii) : list_sum (char_pattern c) = 8%nat.
Proof.
  unfold char_pattern.
  repeat match goal with |- context [if ?b then _ else _] => destruct b end;
    reflexivity.
Qed.

Lemma variation_pattern_sum (c : ascii) : list_sum (variation_pattern c) = 8%nat.
Proof.
  unfold variation_pattern.
  repeat match goal with |- context [if ?b then _ else _] => destruct b end;
    reflexivity.
Qed.

Lemma position_pattern_sum (i : nat) : list_sum (position_pattern i) = 8%nat.
Proof. unfold position_pattern; now destruct (i mod 2 =? 0)%nat. Qed.

Lemma pattern_chars_sum (text : string) :
  list_sum (pattern_chars text) = (8 * length text)%nat /\
  List.length (pattern_chars text) = (6 * length text)%nat.
Proof.
  induction text as [|c text [IH1 IH2]]; [now split|].
  cbn [pattern_chars length].
  rewrite list_sum_app, length_app, char_pattern_sum, char_pattern_length, IH1, IH2.
  lia.
Qed.

Lemma code128_chars_sum (text : string) (i : nat) :
  list_sum (code128_chars i text) = (16 * length text)%nat /\
  List.length (code128_chars i text) = (12 * length text)%nat.
Proof.
  revert i; induction text as [|c text IH]; intros i; [now split|].
  destruct (IH (S i)) as [IH1 IH2].
  cbn [code128_chars length].
  rewrite !list_sum_app, !length_app, position_pattern_sum, variation_pattern_sum,
    position_pattern_length, variation_pattern_length, IH1, IH2.
  lia.
Qed.

(** X12. The size of a generated pattern depends on the length of the
    text alone: [generateBarcodePattern] gives 14 + 6n widths that add up to
    25 + 8n modules, [generateCode128Bars] gives 13 + 12n widths that add up
    to 24 + 16n modules, for a text of n characters; [calculateBarcodeWidth]
    is that number of modules times the module width. *)
Theorem barcode_width_by_length (text : string) (moduleWidth : Z) :
  List.length (generateBarcodePattern text) = (14 + 6 * length text)%nat /\
  calculateBarcodeWidth (generateBarcodePattern text) moduleWidth
  = (25 + 8 * Z.of_nat (length text)) * moduleWidth /\
  List.length (generateCode128Bars text) = (13 + 12 * length text)%nat /\
  calculateBarcodeWidth (generateCode128Bars text) moduleWidth
  = (24 + 16 * Z.of_nat (length text)) * moduleWidth.
Proof.
  unfold calculateBarcodeWidth, generateBarcodePattern, generateCode128Bars.
  rewrite !calculateBarcodeWidth_from, !list_sum_app, !length_app.
  destruct (pattern_chars_sum text) as [-> ->].
  destruct (code128_chars_sum text 0) as [-> ->].
  cbn [List.length Nat.add]. simpl list_sum.
  repeat split; try lia; rewrite Z.add_0_l; f_equal; lia.
Qed.

End WidthFacts.

(** ** The product filter *)

Section FilterFacts.
Import ProductForm Inventory.

Variable toLowerCase : string -> string.

Lemma keeps_both_age_filters (searchTerm : string) (filters : FilterOptions)
    (days now : Z) (product : Product) :
  30 <= days ->
  keeps toLowerCase searchTerm
    {| deadStock := true; slowMoving := true;
       filter_category := filter_category filters;
       filter_manufacturer := filter_manufacturer filters |}
    (Num days) now product
  = keeps toLowerCase searchTerm
      {| deadStock := true; slowMoving := false;
         filter_category := filter_category filters;
         filter_manufacturer := filter_manufacturer filters |}
      (Num days) now product.
Proof.
  intros Hlo. unfold keeps.
  cbn [deadStock slowMoving filter_category filter_manufacturer andb].
  destruct (_ && differs (p_category product) _); [reflexivity|].
  destruct (_ && differs (p_manufacturer product) _); [reflexivity|].
  destruct (daysSinceLastSold now (p_lastSoldAt product)) as [|d|[|]];
    cbn [js_lt negb]; try reflexivity.
  destruct (Qle_bool days d) eqn:E; cbn [negb]; [|reflexivity].
  apply Qle_bool_iff in E.
  assert (H30 : Qle_bool 30 d = true).
  { apply Qle_bool_iff. apply Qle_trans with (inject_Z days); [|exact E].
    change 30%Q with (inject_Z 30). now rewrite <- Zle_Qle. }
  now rewrite H30.
Qed.

(** X13. The two age filters of the inventory list.  With a dead-stock
    threshold of at least 30 days, switching the slow-moving filter on
    besides the dead-stock filter changes nothing in the list shown; and
    when the threshold is at most 999999 days, a product that was never sold
    is not removed by either age filter. *)
Theorem age_filters (searchTerm : string) (filters : FilterOptions)
    (days now : Z) (products : list Product) :
  30 <= days -> days <= 999999 ->
  filteredProducts toLowerCase searchTerm
    {| deadStock := true; slowMoving := true;
       filter_category := filter_category filters;
       filter_manufacturer := filter_manufacturer filters |}
    (Num days) now products
  = filteredProducts toLowerCase searchTerm
      {| deadStock := true; slowMoving := false;
         filter_category := filter_category filters;
         filter_manufacturer := filter_manufacturer filters |}
      (Num days) now products /\
  (forall product,
     p_lastSoldAt product = None ->
     keeps toLowerCase searchTerm filters (Num days) now product
     = keeps toLowerCase searchTerm
         {| deadStock := false; slowMoving := false;
            filter_category := filter_category filters;
            filter_manufacturer := filter_manufacturer filters |}
         (Num days) now product).
Proof.
  intros Hlo Hhi. split.
  - unfold filteredProducts. apply filter_ext.
    intros product. now apply keeps_both_age_filters.
  - intros product Hnever. unfold keeps. rewrite Hnever.
    cbn [deadStock slowMoving filter_category filter_manufacturer andb
         daysSinceLastSold js_lt].
    assert (Hd : Qle_bool days 999999 = true).
    { apply Qle_bool_iff. change 999999%Q with (inject_Z 999999).
      now rewrite <- Zle_Qle. }
    assert (H30 : Qle_bool 30 999999 = true) by reflexivity.
    rewrite Hd, H30. cbn [negb]. rewrite !andb_false_r.
    reflexivity.
Qed.

End FilterFacts.

Section FilterExamples.
Import ProductForm Inventory.

Lemma age_filters_witness :
  (30 <= 90 /\ 90 <= 999999) /\
  filteredProducts (fun s => s) "" (mkFilters true true "" "") (Num 90) 8640000000
    [ mkListed (Some "Ring") (Some "CA-RI") (Some "Rings") (Some "Cartier") None
               (Some (Num 0));
      mkListed (Some "Watch") (Some "TI-WA") (Some "Watches") (Some "Tiffany") None
               (Some (Num 8000000000)) ]
  = filteredProducts (fun s => s) "" (mkFilters true false "" "") (Num 90)
      8640000000
      [ mkListed (Some "Ring") (Some "CA-RI") (Some "Rings") (Some "Cartier") None
                 (Some (Num 0));
        mkListed (Some "Watch") (Some "TI-WA") (Some "Watches") (Some "Tiffany") None
                 (Some (Num 8000000000)) ].
Proof.
  assert (A : 30 <= 90) by lia. assert (B : 90 <= 999999) by lia.
  split; [split; assumption |].
  apply (proj1 (age_filters (fun s => s) "" (mkFilters true true "" "") 90
                  8640000000 _ A B)).
Defined.

End FilterExamples.

(** ** The category summary of the thermal bill *)

Section ThermalFacts.
Import Thermal.

Lemma lookup_add_quantity (c k : string) (q : Z) (acc : list (string * Z)) :
  lookup k (add_quantity c q acc) =
  if (c =? k)%string
  then Some (match lookup k acc with Some n => n + q | None => 0 + q end)
  else lookup k acc.
Proof.
  induction acc as [|[c' n] acc IH]; cbn [add_quantity lookup].
  - destruct (c =? k)%string; reflexivity.
  - destruct (String.eqb_spec c' c) as [->|Hne]; cbn [lookup].
    + destruct (c =? k)%string; reflexivity.
    + destruct (String.eqb_spec c' k) as [->|Hk].
      * destruct (String.eqb_spec c k); [congruence | reflexivity].
      * exact IH.
Qed.

Lemma total_add_quantity (c : string) (q start : Z) (acc : list (string * Z)) :
  fold_left (fun sum cat => sum + snd cat) (add_quantity c q acc) start
  = fold_left (fun sum cat => sum + snd cat) acc start + q.
Proof.
  revert start; induction acc as [|[c' n] acc IH]; intros start;
    cbn [add_quantity fold_left snd]; [lia|].
  destruct (c' =? c)%string; cbn [fold_left snd].
  - assert (G : forall l a b,
               fold_left (fun sum (cat : string * Z) => sum + snd cat) l (a + b)
               = fold_left (fun sum cat => sum + snd cat) l a + b).
    { clear. induction l as [|x l IHl]; intros a b; cbn; [reflexivity|].
      replace (a + b + snd x) with (a + snd x + b) by lia. apply IHl. }
    replace (start + (n + q)) with (start + n + q) by lia. apply G.
  - apply IH.
Qed.

(** Listing the properties rearranges them, no more. *)
Lemma insert_by_index_perm (entry : string * Z) (l : list (string * Z)) :
  Permutation (insert_by_index entry l) (entry :: l).
Proof.
  induction l as [|e l IH]; cbn [insert_by_index]; [reflexivity|].
  destruct (index_of entry <? index_of e); [reflexivity|].
  rewrite IH. apply perm_swap.
Qed.

Lemma listed_perm (acc : list (string * Z)) : Permutation (listed acc) acc.
Proof.
  unfold listed. induction acc as [|e acc IH]; [reflexivity|].
  cbn [filter]. destruct (is_index e); cbn [negb fold_right].
  - rewrite insert_by_index_perm. cbn [app]. now apply perm_skip.
  - rewrite <- Permutation_middle. now apply perm_skip.
Qed.

Lemma total_perm (l l' : list (string * Z)) (start : Z) :
  Permutation l l' ->
  fold_left (fun sum cat => sum + snd cat) l start
  = fold_left (fun sum cat => sum + snd cat) l' start.
Proof.
  intros H; revert start; induction H as [|x l l' _ IH|x y l|l l' l'' _ IH1 _ IH2];
    intros start; cbn [fold_left].
  - reflexivity.
  - apply IH.
  - f_equal. lia.
  - now rewrite IH1.
Qed.

Lemma lookup_perm (c : string) (l l' : list (string * Z)) :
  Permutation l l' -> NoDup (map fst l) -> lookup c l = lookup c l'.
Proof.
  induction 1 as [|[k n] l l' Hp IH|[k n] [k' n'] l|l l' l'' H1 IH1 H2 IH2];
    intros Hnd; cbn [lookup].
  - reflexivity.
  - destruct (k =? c)%string; [reflexivity|].
    apply IH. now inversion Hnd.
  - destruct (String.eqb_spec k c) as [->|], (String.eqb_spec k' c) as [->|];
      try reflexivity.
    cbn [map fst] in Hnd. inversion Hnd as [|? ? Hnotin _]; subst.
    destruct Hnotin. now left.
  - rewrite IH1 by exact Hnd. apply IH2.
    apply (Permutation_NoDup (Permutation_map fst H1) Hnd).
Qed.

Lemma add_quantity_keys (c : string) (q : Z) (acc : list (string * Z)) :
  map fst (add_quantity c q acc)
  = if existsb (String.eqb c) (map fst acc) then map fst acc
    else (map fst acc ++ [c])%list.
Proof.
  induction acc as [|[c' n] acc IH]; cbn [add_quantity map fst existsb];
    [reflexivity|].
  rewrite (String.eqb_sym c c').
  destruct (c' =? c)%string; cbn [map fst orb]; [reflexivity|].
  rewrite IH. now destruct (existsb (String.eqb c) (map fst acc)).
Qed.

Lemma totals_keys_NoDup (items : list Item) : NoDup (map fst (totals items)).
Proof.
  unfold totals.
  induction items as [|item items IH] using rev_ind; [constructor|].
  rewrite fold_left_app. cbn [fold_left].
  destruct (inherited (category item)); [exact IH|].
  rewrite add_quantity_keys.
  destruct (existsb _ _) eqn:E; [exact IH|].
  apply NoDup_app; [exact IH | repeat constructor; intros [] |].
  intros k Hk [<-|[]].
  assert (T : existsb (String.eqb (category item))
                (map fst
                   (fold_left
                      (fun acc item0 =>
                         if inherited (category item0) then acc
                         else add_quantity (category item0) (quantity item0) acc)
                      items [])) = true).
  { apply existsb_exists. exists (category item). split; [exact Hk|].
    apply String.eqb_refl. }
  congruence.
Qed.

Lemma grandTotal_totals (items : list Item) :
  grandTotal items = fold_left (fun sum cat => sum + snd cat) (totals items) 0.
Proof. unfold grandTotal, categories. apply total_perm, listed_perm. Qed.

Lemma lookup_categories (c : string) (items : list Item) :
  lookup c (categories items) = lookup c (totals items).
Proof.
  unfold categories. symmetry. apply lookup_perm.
  - symmetry. apply listed_perm.
  - apply totals_keys_NoDup.
Qed.

(** The lines come in the order of the listing: a category whose name is
    an array index is listed before one whose name is not, whichever was
    met first. *)
Example categories_order :
  categories [mkLine "Rings" 2; mkLine "7" 1; mkLine "Rings" 3; mkLine "10" 4]
  = [("7", 1); ("10", 4); ("Rings", 5)].
Proof. reflexivity. Qed.

(** An item whose category is an inherited name gets no line and is left
    out of "Total Items". *)
Lemma inherited_category_is_dropped (items : list Item) (q : Z) :
  categories (items ++ [mkLine "constructor" q]) = categories items /\
  grandTotal (items ++ [mkLine "constructor" q]) = grandTotal items.
Proof.
  unfold grandTotal, categories, totals. rewrite fold_left_app. now split.
Qed.

(** X14. The category summary of the bill.  For items none of whose
    categories is a name inherited from [Object.prototype], "Total Items" is
    the sum of the quantities of all the items, and the line of each
    category shows the sum of the quantities of its items; a category
    without item has no line. *)
Theorem category_summary_adds_up (items : list Item) (c : string) :
  Forall (fun item => ~ In (category item) inherited_keys) items ->
  grandTotal items = pieces items /\
  lookup c (categories items) =
  (if existsb (fun item => (category item =? c)%string) items
   then Some (pieces_of c items) else None).
Proof.
  rewrite grandTotal_totals, lookup_categories. unfold totals.
  induction items as [|item items IH] using rev_ind; intros Hall; [now split|].
  apply Forall_app in Hall as [Hitems Hitem].
  destruct (IH Hitems) as [IH1 IH2].
  rewrite fold_left_app. cbn [fold_left].
  assert (Hown : inherited (category item) = false).
  { inversion Hitem as [|? ? Hnot _]; subst. unfold inherited.
    destruct (existsb (String.eqb (category item)) inherited_keys) eqn:E;
      [|reflexivity].
    apply existsb_exists in E as (k & Hin & Hk).
    apply String.eqb_eq in Hk. subst k. contradiction. }
  rewrite Hown, total_add_quantity, IH1, lookup_add_quantity, IH2.
  assert (P : forall l, pieces (l ++ [item]) = pieces l + quantity item).
  { induction l as [|x l IHl]; cbn; [lia | rewrite IHl; lia]. }
  assert (Q : forall l, pieces_of c (l ++ [item])
                        = pieces_of c l
                          + (if (category item =? c)%string then quantity item else 0)).
  { induction l as [|x l IHl]; cbn; [lia | rewrite IHl; lia]. }
  rewrite P, Q, existsb_app. cbn [existsb]. rewrite orb_false_r.
  split; [reflexivity|].
  destruct (category item =? c)%string.
  - rewrite orb_true_r.
    destruct (existsb _ items) eqn:E; [reflexivity|].
    f_equal.
    assert (Z0 : pieces_of c items = 0).
    { clear - E. induction items as [|x l IHl]; [reflexivity|].
      cbn in E |- *. apply orb_false_iff in E as [E1 E2].
      rewrite E1, (IHl E2). reflexivity. }
    lia.
  - rewrite orb_false_r, Z.add_0_r. reflexivity.
Qed.

Lemma category_summary_adds_up_witness :
  Forall (fun item => ~ In (category item) inherited_keys)
    [mkLine "Rings" 2; mkLine "Watches" 1; mkLine "Rings" 3] /\
  grandTotal [mkLine "Rings" 2; mkLine "Watches" 1; mkLine "Rings" 3] = 6.
Proof.
  assert (H : Forall (fun item => ~ In (category item) inherited_keys)
                [mkLine "Rings" 2; mkLine "Watches" 1; mkLine "Rings" 3])
    by (repeat constructor; cbn; intuition discriminate).
  split; [exact H |].
  apply (proj1 (category_summary_adds_up _ "Rings" H)).
Defined.

End ThermalFacts.
